(** * Shortest paths with a binary heap: [task_3_dijkstra_heap.py]

    A shallow embedding of the class [Graph] (adjacency lists in a
    [defaultdict(list)], [add_edge], [dijkstra], [reconstruct_path]) and of
    [demo_graph], followed by the properties of the shortest-path engine.

    Modelling conventions.
    - Vertices are any type with decidable equality that can key a dictionary
      ([Countable]); the order Python uses to compare two heap tuples with
      equal distances is the parameter [vltb].
    - Numbers are modelled at two levels.  The first part of the file takes
      weights as exact integers ([Z]) and the values stored in [dist] as
      [num], an integer or [float('inf')]: it covers the control flow, the
      exceptions, the dictionaries and the heap, and every property that
      does not depend on how a sum is rounded.  The module [F64] embeds the
      same methods over the float operations of the source ([float(w)],
      [d_u + w], [<], [!=]) taken as parameters, so that a sum may round or
      overflow to [float('inf')]; the properties about the values of the
      distances and the predecessor links are proved there, for every
      arithmetic with the order and monotonicity properties [F64.laws],
      and the binary64 operations ([PrimFloat]) are run on concrete graphs.
    - A dictionary is a [gmap]; [self.adj] is a [defaultdict(list)], whose
      subscript creates a missing key ([adj_getitem]).
    - [heapq] is modelled by its contract: [heappush] adds an entry,
      [heappop] removes and returns the smallest tuple.
    - Python exceptions are the [Raise] outcome; the [while] loops take fuel
      and report [OutOfFuel] when it runs out. *)

From stdpp Require Import gmap strings list fin_maps.
From Stdlib Require Import ZArith Lia PrimFloat.

Set Default Proof Using "Type".
(* set_solver clears hypotheses more than once *)
Set Warnings "-clear-no-such-hyp".
Local Open Scope Z_scope.

(** ** Numbers, exceptions and outcomes *)

(** A distance: a finite number or [float('inf')]. *)
Inductive num : Type :=
  | Fin (z : Z)
  | PInf.

Global Instance num_eq_dec : EqDecision num.
Proof. solve_decision. Defined.

(** [a + b] on distances, exact: the sum of two integers is never rounded
    and never overflows (the rounded sum of the source is [F64.add]). *)
Definition num_add (a b : num) : num :=
  match a, b with
  | Fin x, Fin y => Fin (x + y)
  | _, _ => PInf
  end.

(** [a < b] on distances. *)
Definition num_ltb (a b : num) : bool :=
  match a, b with
  | Fin x, Fin y => x <? y
  | Fin _, PInf => true
  | PInf, _ => false
  end.

Definition num_lt (a b : num) : Prop := num_ltb a b = true.
Definition num_le (a b : num) : Prop := num_ltb b a = false.

(** The two exceptions the module raises: [ValueError] in [add_edge],
    [KeyError] in [dijkstra] (and from a failed dictionary subscript). *)
Inductive exn : Type :=
  | ValueError
  | KeyError.

Inductive outcome (A : Type) : Type :=
  | Ret (a : A)
  | Raise (e : exn)
  | OutOfFuel.
Arguments Ret {A} a.
Arguments Raise {A} e.
Arguments OutOfFuel {A}.

Section Dijkstra.
Context {V : Type} `{Countable V}.

(** [u < v] on vertices, used by Python only to order two heap tuples
    whose distances are equal. *)
Variable vltb : V → V → bool.

(** The only field of a [Graph] object: [self.adj]. *)
#[local] Abbreviation Graph := (gmap V (list (V * Z))).
#[local] Abbreviation entry := (num * V)%type.

(** *** class Graph *)

(** [Graph()] *)
Definition empty_graph : Graph := ∅.

(** [self.adj[u]] on the [defaultdict(list)]: a missing key is created
    with an empty list. *)
Definition adj_getitem (g : Graph) (u : V) : Graph * list (V * Z) :=
  match g !! u with
  | Some l => (g, l)
  | None => (<[u := []]> g, [])
  end.

(** [add_edge(u, v, w, undirected)] for an integer weight that [float(w)]
    represents exactly; the conversion, its rounding and its
    [OverflowError] are in [F64.add_edge]. *)
Definition add_edge (g : Graph) (u v : V) (w : Z) (undirected : bool)
  : Graph * outcome unit :=
  if w <? 0 then (g, Raise ValueError)
  else
    let '(g0, lu) := adj_getitem g u in
    let g1 := <[u := lu ++ [(v, w)]]> g0 in
    let g2 := match g1 !! v with
              | Some _ => g1
              | None => <[v := []]> g1
              end in
    if undirected then
      let '(g3, lv) := adj_getitem g2 v in
      (<[v := lv ++ [(u, w)]]> g3, Ret ())
    else (g2, Ret ()).

(** *** heapq *)

(** Tuple comparison [(d1, u1) < (d2, u2)]. *)
Definition entry_ltb (a b : entry) : bool :=
  num_ltb a.1 b.1 || (bool_decide (a.1 = b.1) && vltb a.2 b.2).

Fixpoint heap_min (best : entry) (h : list entry) : entry :=
  match h with
  | [] => best
  | e :: h' => heap_min (if entry_ltb e best then e else best) h'
  end.

Fixpoint remove_first (e : entry) (h : list entry) : list entry :=
  match h with
  | [] => []
  | x :: h' => if decide (x = e) then h' else x :: remove_first e h'
  end.

(** [heapq.heappush(heap, e)] *)
Definition heappush (h : list entry) (e : entry) : list entry := e :: h.

(** [heapq.heappop(heap)] on a non-empty heap; [None] on an empty one. *)
Definition heappop (h : list entry) : option (entry * list entry) :=
  match h with
  | [] => None
  | e :: h' => let m := heap_min e h' in Some (m, remove_first m h)
  end.

(** *** dijkstra *)

(** The local variables of [dijkstra]. *)
Record locals : Type := Locals {
  dist : gmap V num;
  prev : gmap V (option V);
  heap : list entry
}.

(** One pass of the body of [for v, w in self.adj[u]]. *)
Definition relax_edge (d_u : num) (u : V) (st : locals) (e : V * Z)
  : outcome locals :=
  let alt := num_add d_u (Fin e.2) in
  match dist st !! e.1 with
  | None => Raise KeyError
  | Some dv =>
      if num_ltb alt dv then
        Ret (Locals (<[e.1 := alt]> (dist st))
                    (<[e.1 := Some u]> (prev st))
                    (heappush (heap st) (alt, e.1)))
      else Ret st
  end.

(** [for v, w in self.adj[u]: ...] *)
Fixpoint relax (d_u : num) (u : V) (st : locals) (l : list (V * Z))
  : outcome locals :=
  match l with
  | [] => Ret st
  | e :: l' =>
      match relax_edge d_u u st e with
      | Ret st' => relax d_u u st' l'
      | Raise x => Raise x
      | OutOfFuel => OutOfFuel
      end
  end.

(** The body of [while heap], after [d_u, u = heapq.heappop(heap)] left
    [h'] in the heap. *)
Definition while_body (g : Graph) (st : locals) (d_u : num) (u : V)
    (h' : list entry) : Graph * outcome locals :=
  match dist st !! u with
  | None => (g, Raise KeyError)
  | Some du =>
      if decide (d_u ≠ du) then (g, Ret (Locals (dist st) (prev st) h'))
      else
        let '(g', l) := adj_getitem g u in
        (g', relax d_u u (Locals (dist st) (prev st) h') l)
  end.

(** [while heap: ...; return dist, prev] *)
Fixpoint while_heap (fuel : nat) (g : Graph) (st : locals)
  : Graph * outcome (gmap V num * gmap V (option V)) :=
  match fuel with
  | O => (g, OutOfFuel)
  | S n =>
      match heappop (heap st) with
      | None => (g, Ret (dist st, prev st))
      | Some ((d_u, u), h') =>
          match while_body g st d_u u h' with
          | (g', Ret st') => while_heap n g' st'
          | (g', Raise x) => (g', Raise x)
          | (g', OutOfFuel) => (g', OutOfFuel)
          end
      end
  end.

(** The locals when the loop is entered: [dist] and [prev] filled for every
    key of [self.adj], then [dist[source] = 0.0] and the seeded heap. *)
Definition init_locals (g : Graph) (source : V) : locals :=
  let dist0 : gmap V num := (λ _, PInf) <$> g in
  let prev0 : gmap V (option V) := (λ _, None) <$> g in
  Locals (<[source := Fin 0]> dist0) prev0 [(Fin 0, source)].

(** [dijkstra(source)]: the graph after the call and its outcome.  The two
    dictionaries are built before the source is looked up, as in the
    source; they are dropped when it is missing. *)
Definition dijkstra (fuel : nat) (g : Graph) (source : V)
  : Graph * outcome (gmap V num * gmap V (option V)) :=
  let dist0 : gmap V num := (λ _, PInf) <$> g in
  let prev0 : gmap V (option V) := (λ _, None) <$> g in
  match g !! source with
  | None => (g, Raise KeyError)
  | Some _ =>
      while_heap fuel g
        (Locals (<[source := Fin 0]> dist0) prev0 [(Fin 0, source)])
  end.

(** *** reconstruct_path *)

(** [while cur is not None: path.append(cur); cur = prev[cur]] *)
Fixpoint walk_back (fuel : nat) (prev : gmap V (option V))
    (cur : option V) (path : list V) : outcome (list V) :=
  match fuel with
  | O => OutOfFuel
  | S n =>
      match cur with
      | None => Ret path
      | Some c =>
          match prev !! c with
          | None => Raise KeyError
          | Some p => walk_back n prev p (path ++ [c])
          end
      end
  end.

(** [reconstruct_path(prev, target)] *)
Definition reconstruct_path (fuel : nat) (prev : gmap V (option V))
    (target : V) : outcome (list V) :=
  match prev !! target with
  | None => Ret []
  | Some _ =>
      match walk_back fuel prev (Some target) [] with
      | Ret path => Ret (reverse path)
      | other => other
      end
  end.

(** The graph [add_edge] leaves when it does not raise. *)
Definition add_edge_graph (g : Graph) (u v : V) (w : Z) (undirected : bool)
  : Graph :=
  let g1 := <[u := default [] (g !! u) ++ [(v, w)]]> g in
  let g2 := match g1 !! v with Some _ => g1 | None => <[v := []]> g1 end in
  if undirected then <[v := default [] (g2 !! v) ++ [(u, w)]]> g2 else g2.

(** [for u, v, w, undirected in ops: g.add_edge(u, v, w, undirected)]; the
    first exception stops the loop. *)
Fixpoint add_edges (g : Graph) (ops : list (V * V * Z * bool))
  : Graph * outcome unit :=
  match ops with
  | [] => (g, Ret ())
  | op :: ops' =>
      match add_edge g op.1.1.1 op.1.1.2 op.1.2 op.2 with
      | (g', Ret _) => add_edges g' ops'
      | (g', Raise x) => (g', Raise x)
      | (g', OutOfFuel) => (g', OutOfFuel)
      end
  end.

(** *** The stale test as the specification words it

    The same loop with "the popped distance is strictly greater than the
    recorded one" in place of the source's [d_u != dist[u]]. *)

Definition while_body_strict_spec (g : Graph) (st : locals) (d_u : num)
    (u : V) (h' : list entry) : Graph * outcome locals :=
  match dist st !! u with
  | None => (g, Raise KeyError)
  | Some du =>
      if num_ltb du d_u then (g, Ret (Locals (dist st) (prev st) h'))
      else
        let '(g', l) := adj_getitem g u in
        (g', relax d_u u (Locals (dist st) (prev st) h') l)
  end.

Fixpoint while_heap_strict_spec (fuel : nat) (g : Graph) (st : locals)
  : Graph * outcome (gmap V num * gmap V (option V)) :=
  match fuel with
  | O => (g, OutOfFuel)
  | S n =>
      match heappop (heap st) with
      | None => (g, Ret (dist st, prev st))
      | Some ((d_u, u), h') =>
          match while_body_strict_spec g st d_u u h' with
          | (g', Ret st') => while_heap_strict_spec n g' st'
          | (g', Raise x) => (g', Raise x)
          | (g', OutOfFuel) => (g', OutOfFuel)
          end
      end
  end.

Definition dijkstra_strict_spec (fuel : nat) (g : Graph) (source : V)
  : Graph * outcome (gmap V num * gmap V (option V)) :=
  let dist0 : gmap V num := (λ _, PInf) <$> g in
  let prev0 : gmap V (option V) := (λ _, None) <$> g in
  match g !! source with
  | None => (g, Raise KeyError)
  | Some _ =>
      while_heap_strict_spec fuel g
        (Locals (<[source := Fin 0]> dist0) prev0 [(Fin 0, source)])
  end.

(** The states in which the [while] test of [dijkstra g source] is
    evaluated. *)
Inductive loop_state (g : Graph) (source : V) : Graph → locals → Prop :=
  | loop_enter l :
      g !! source = Some l →
      loop_state g source g (init_locals g source)
  | loop_again g1 st d_u u h' g2 st' :
      loop_state g source g1 st →
      heappop (heap st) = Some ((d_u, u), h') →
      while_body g1 st d_u u h' = (g2, Ret st') →
      loop_state g source g2 st'.

(** *** Graphs, paths and their weights *)

(** [(v, w)] is in the neighbour list of [u]. *)
Definition edge (g : Graph) (u v : V) (w : Z) : Prop :=
  ∃ l, g !! u = Some l ∧ (v, w) ∈ l.

(** The invariant of a [Graph] object: every neighbour is a key and no
    stored weight is negative. *)
Definition wf_graph (g : Graph) : Prop :=
  ∀ u v w, edge g u v w → v ∈ dom g ∧ 0 ≤ w.

(** [p] is a sequence of edges leading from [a] to [b]. *)
Fixpoint is_path (g : Graph) (a b : V) (p : list (V * V * Z)) : Prop :=
  match p with
  | [] => a = b
  | e :: p' => e.1.1 = a ∧ edge g a e.1.2 e.2 ∧ is_path g e.1.2 b p'
  end.

(** The sum of the edge weights along a path. *)
Definition path_weight (p : list (V * V * Z)) : Z :=
  foldr (λ e acc, e.2 + acc) 0 p.

Definition reachable (g : Graph) (a b : V) : Prop :=
  ∃ p, is_path g a b p.

(** [d] is the least weight of a path from [a] to [b]. *)
Definition min_path_weight (g : Graph) (a b : V) (d : Z) : Prop :=
  (∃ p, is_path g a b p ∧ path_weight p = d) ∧
  (∀ p, is_path g a b p → d ≤ path_weight p).

(** The vertices of a path given as a vertex sequence are joined by edges
    whose weights add up to [d]. *)
Fixpoint vertex_path (g : Graph) (vs : list V) (d : Z) : Prop :=
  match vs with
  | [] => False
  | a :: vs' =>
      match vs' with
      | [] => d = 0
      | b :: _ => ∃ w, edge g a b w ∧ vertex_path g vs' (d - w)
      end
  end.

(** An insertion contributes the edge [a → b] of weight [c]. *)
Definition op_edge (op : V * V * Z * bool) (a b : V) (c : Z) : Prop :=
  (a = op.1.1.1 ∧ b = op.1.1.2 ∧ c = op.1.2) ∨
  (op.2 = true ∧ a = op.1.1.2 ∧ b = op.1.1.1 ∧ c = op.1.2).

(** One predecessor link. *)
Definition pred_link (prev : gmap V (option V)) (v u : V) : Prop :=
  prev !! v = Some (Some u).

(** The number of stored (neighbour, weight) pairs. *)
Definition outdeg (g : Graph) (u : V) : nat :=
  length (default [] (g !! u)).

Definition edge_count (g : Graph) : nat :=
  sum_list_with (λ kv, length kv.2) (map_to_list g).

(** Fuel that suffices for [dijkstra] on a graph without negative
    weights: one pop for the seed, one per push, and the last test. *)
Definition dijkstra_fuel (g : Graph) : nat := S (S (edge_count g)).

(** Fuel that suffices for [reconstruct_path] on a map [dijkstra]
    returned. *)
Definition reconstruct_fuel (g : Graph) : nat := S (S (size (dom g))).

(** *** The loop invariant *)

(** Index of the first occurrence of [x] in [l], [length l] if none. *)
Fixpoint pos (l : list V) (x : V) : nat :=
  match l with
  | [] => O
  | y :: l' => if decide (x = y) then O else S (pos l' x)
  end.

(** The out-edges in [l] of [x] cannot improve any distance. *)
Definition relaxed (st : locals) (x : V) (l : list (V * Z)) : Prop :=
  ∀ d v w, dist st !! x = Some (Fin d) → (v, w) ∈ l →
    ∃ dv, dist st !! v = Some dv ∧ num_le dv (Fin (d + w)).

Definition all_relaxed (g : Graph) (done : list V) (st : locals) : Prop :=
  ∀ x l, x ∈ done → g !! x = Some l → relaxed st x l.

(** [done] lists the vertices popped with a current entry, in that order;
    [m] is the distance of the last of them. *)
Record inv (g : Graph) (s : V) (done : list V) (m : Z) (st : locals)
  : Prop := Inv {
  inv_dom_dist : dom (dist st) = dom g;
  inv_dom_prev : dom (prev st) = dom g;
  inv_src_dist : dist st !! s = Some (Fin 0);
  inv_src_prev : prev st !! s = Some None;
  inv_level : 0 ≤ m;
  inv_sound : ∀ v d, dist st !! v = Some (Fin d) →
    ∃ p, is_path g s v p ∧ path_weight p = d;
  inv_pending : ∀ v d, dist st !! v = Some (Fin d) →
    v ∈ done ∨ (Fin d, v) ∈ heap st;
  inv_heap : ∀ d y, (d, y) ∈ heap st →
    ∃ z dy, d = Fin z ∧ m ≤ z ∧ dist st !! y = Some dy ∧ num_le dy d;
  inv_nodup : NoDup (heap st);
  inv_done_nodup : NoDup done;
  inv_done : ∀ x, x ∈ done →
    ∃ d, dist st !! x = Some (Fin d) ∧ d ≤ m ∧ (Fin d, x) ∉ heap st;
  inv_prev : ∀ v u, prev st !! v = Some (Some u) →
    (pos done u < pos done v)%nat ∧
    ∃ du w, dist st !! u = Some (Fin du) ∧ edge g u v w ∧
            dist st !! v = Some (Fin (du + w));
  inv_prev_some : ∀ v d, dist st !! v = Some (Fin d) →
    v = s ∨ ∃ u, prev st !! v = Some (Some u)
}.

(** What holds of the loop on any graph, well formed or not. *)
Record weak_inv (g : Graph) (st : locals) : Prop := WeakInv {
  weak_dom : dom (dist st) = dom g;
  weak_heap : ∀ d y, (d, y) ∈ heap st →
    ∃ dy, dist st !! y = Some dy ∧ num_le dy d
}.

(** Each vertex of the list is the predecessor of the next one. *)
Fixpoint linked (prev : gmap V (option V)) (path : list V) : Prop :=
  match path with
  | [] => True
  | a :: rest =>
      match rest with
      | [] => True
      | b :: _ => prev !! b = Some (Some a) ∧ linked prev rest
      end
  end.


End Dijkstra.

(** ** demo_graph *)

Definition demo_edges : list (string * string * Z) :=
  [("A", "B", 4); ("A", "C", 2); ("B", "C", 1); ("B", "D", 5);
   ("C", "D", 8); ("C", "E", 10); ("D", "E", 2); ("B", "E", 6)]%string.

(** [demo_graph(undirected)] *)
Definition demo_graph (undirected : bool) : gmap string (list (string * Z)) :=
  (add_edges empty_graph (map (λ e, (e, undirected)) demo_edges)).1.

(** The maps [dijkstra("A")] returns on the undirected demo graph. *)
Definition demo_dist : gmap string num :=
  list_to_map [("A", Fin 0); ("B", Fin 3); ("C", Fin 2); ("D", Fin 8);
               ("E", Fin 9)]%string.

Definition demo_prev : gmap string (option string) :=
  list_to_map [("A", None); ("B", Some "C"); ("C", Some "A");
               ("D", Some "B"); ("E", Some "B")]%string.

(** ** read_edges_from_file

    The file is read by [csv.reader], which yields each line as a list of
    fields; the loop over those rows is modelled, on the rows as input.
    [to_float] stands for [float(row[2])]: the number the field denotes,
    [None] where Python raises [ValueError]. *)

Section ReadEdges.
Variable to_float : string → option Z.

(** [for row in reader: ...], then [return g]. *)
Fixpoint read_rows (g : gmap string (list (string * Z)))
    (rows : list (list string)) (undirected : bool)
  : outcome (gmap string (list (string * Z))) :=
  match rows with
  | [] => Ret g
  | row :: rows' =>
      match row with
      | u :: v :: ws :: _ =>
          match to_float ws with
          | None => Raise ValueError
          | Some w =>
              match add_edge g u v w undirected with
              | (g', Ret _) => read_rows g' rows' undirected
              | (_, Raise e) => Raise e
              | (_, OutOfFuel) => OutOfFuel
              end
          end
      | _ => read_rows g rows' undirected
      end
  end.

(** [read_edges_from_file(path, delimiter, undirected)] on the rows of the
    file. *)
Definition read_edges_from_file (rows : list (list string))
    (undirected : bool) : outcome (gmap string (list (string * Z))) :=
  read_rows empty_graph rows undirected.

(** The edge a row with at least three fields stands for. *)
Definition row_triple (row : list string) : option (string * string * Z) :=
  match row with
  | u :: v :: ws :: _ => (λ w, (u, v, w)) <$> to_float ws
  | _ => None
  end.

(** The rows the loop does not skip. *)
Definition long_rows (rows : list (list string)) : list (list string) :=
  filter (λ row, (3 ≤ length row)%nat) rows.

(** A row the loop cannot turn into an edge: its third field is not a
    number, or the number is negative. *)
Definition bad_row (row : list string) : Prop :=
  match row_triple row with
  | Some t => t.2 < 0
  | None => True
  end.


End ReadEdges.


(** An instance of [float] for the examples: fields that are decimal
    integer literals, with an optional minus sign. *)
Fixpoint digits_value (acc : Z) (s : string) : option Z :=
  match s with
  | EmptyString => Some acc
  | String c s' =>
      let n := Z.of_nat (Ascii.nat_of_ascii c) in
      if (48 <=? n) && (n <=? 57) then digits_value (10 * acc + (n - 48)) s'
      else None
  end.

Definition int_literal (s : string) : option Z :=
  match s with
  | EmptyString => None
  | String c s' =>
      if Ascii.eqb c (Ascii.ascii_of_nat 45) then
        match s' with
        | EmptyString => None
        | _ => Z.opp <$> digits_value 0 s'
        end
      else digits_value 0 s
  end.

(** ** The same functions over floats

    [dist], the heap and the stored weights hold Python floats, and
    [alt = d_u + w] rounds and overflows.  The module [F64] models
    [add_edge], [dijkstra] and the report loops of [main] over a type [F] of
    floats with the five operations the source uses on them; [prim_ops]
    instantiates them with binary64 itself. *)

Module F64.

(** The float operations of the source. *)
Record ops (F : Type) : Type := Ops {
  zero : F;
  inf : F;
  add : F → F → F;
  ltb : F → F → bool;
  eqb : F → F → bool
}.
Arguments Ops {F}.
Arguments zero {F}.
Arguments inf {F}.
Arguments add {F}.
Arguments ltb {F}.
Arguments eqb {F}.

(** [a <= b], as "not [b < a]". *)
Definition le {F : Type} (Fl : ops F) (a b : F) : Prop := ltb Fl b a = false.

(** What the proofs use of float arithmetic; binary64 has these properties
    on its values other than nan (with -0.0 and 0.0 taken as one value):
    [<] is a strict total order with [float('inf')] on top, and rounded
    addition of non-negative values is monotone and never decreases. *)
Record laws {F : Type} (Fl : ops F) : Prop := Laws {
  eqb_eq : ∀ a b, eqb Fl a b = true ↔ a = b;
  ltb_irrefl : ∀ a, ltb Fl a a = false;
  ltb_asym : ∀ a b, ltb Fl a b = true → ltb Fl b a = false;
  le_trans : ∀ a b c, le Fl a b → le Fl b c → le Fl a c;
  le_antisym : ∀ a b, le Fl a b → le Fl b a → a = b;
  inf_top : ∀ a, le Fl a (inf Fl);
  zero_finite : zero Fl ≠ inf Fl;
  add_mono : ∀ a b w,
    le Fl (zero Fl) a → le Fl (zero Fl) w → le Fl a b →
    le Fl (add Fl a w) (add Fl b w);
  add_infl : ∀ a w,
    le Fl (zero Fl) a → le Fl (zero Fl) w → le Fl a (add Fl a w)
}.

(** The exceptions of the module, with the [OverflowError] of [float(w)]. *)
Inductive exn : Type :=
  | ValueError
  | KeyError
  | OverflowError.

Inductive outcome (A : Type) : Type :=
  | Ret (a : A)
  | Raise (e : exn)
  | OutOfFuel.
Arguments Ret {A} a.
Arguments Raise {A} e.
Arguments OutOfFuel {A}.

(** A weight argument of [add_edge]: a Python int or a Python float. *)
Inductive pynum (F : Type) : Type :=
  | PyInt (z : Z)
  | PyFloat (x : F).
Arguments PyInt {F} z.
Arguments PyFloat {F} x.

Section Code.
Context {V : Type} `{Countable V} {F : Type}.
Variable vltb : V → V → bool.
Variable Fl : ops F.

(** [float(z)] for an int [z]: the nearest float, [None] where Python
    raises [OverflowError]. *)
Variable float_of_int : Z → option F.

#[local] Abbreviation Graph := (gmap V (list (V * F))).
#[local] Abbreviation entry := (F * V)%type.

(** [self.adj[u]] on the [defaultdict(list)]. *)
Definition adj_getitem (g : Graph) (u : V) : Graph * list (V * F) :=
  match g !! u with
  | Some l => (g, l)
  | None => (<[u := []]> g, [])
  end.

(** [w < 0] *)
Definition is_negative (w : pynum F) : bool :=
  match w with
  | PyInt z => z <? 0
  | PyFloat x => ltb Fl x (zero Fl)
  end.

(** [float(w)] *)
Definition to_float (w : pynum F) : option F :=
  match w with
  | PyInt z => float_of_int z
  | PyFloat x => Some x
  end.

(** [add_edge(u, v, w, undirected)].  In
    [self.adj[u].append((v, float(w)))] the subscript is evaluated before
    [float(w)], so an [OverflowError] leaves the key [u] created. *)
Definition add_edge (g : Graph) (u v : V) (w : pynum F) (undirected : bool)
  : Graph * outcome unit :=
  if is_negative w then (g, Raise ValueError)
  else
    let '(g0, lu) := adj_getitem g u in
    match to_float w with
    | None => (g0, Raise OverflowError)
    | Some x =>
        let g1 := <[u := lu ++ [(v, x)]]> g0 in
        let g2 := match g1 !! v with
                  | Some _ => g1
                  | None => <[v := []]> g1
                  end in
        if undirected then
          let '(g3, lv) := adj_getitem g2 v in
          (<[v := lv ++ [(u, x)]]> g3, Ret ())
        else (g2, Ret ())
    end.

(** Tuple comparison [(d1, u1) < (d2, u2)]: the first components decide
    unless they are equal. *)
Definition entry_ltb (a b : entry) : bool :=
  if eqb Fl a.1 b.1 then vltb a.2 b.2 else ltb Fl a.1 b.1.

(** Tuple equality [(d1, u1) == (d2, u2)]. *)
Definition entry_eqb (a b : entry) : bool :=
  eqb Fl a.1 b.1 && bool_decide (a.2 = b.2).

Fixpoint heap_min (best : entry) (h : list entry) : entry :=
  match h with
  | [] => best
  | e :: h' => heap_min (if entry_ltb e best then e else best) h'
  end.

Fixpoint remove_first (e : entry) (h : list entry) : list entry :=
  match h with
  | [] => []
  | x :: h' => if entry_eqb x e then h' else x :: remove_first e h'
  end.

(** [heapq.heappush(heap, e)] *)
Definition heappush (h : list entry) (e : entry) : list entry := e :: h.

(** [heapq.heappop(heap)] on a non-empty heap; [None] on an empty one. *)
Definition heappop (h : list entry) : option (entry * list entry) :=
  match h with
  | [] => None
  | e :: h' => let m := heap_min e h' in Some (m, remove_first m h)
  end.

(** The local variables of [dijkstra]. *)
Record locals : Type := Locals {
  dist : gmap V F;
  prev : gmap V (option V);
  heap : list entry
}.

(** One pass of the body of [for v, w in self.adj[u]]. *)
Definition relax_edge (d_u : F) (u : V) (st : locals) (e : V * F)
  : outcome locals :=
  let alt := add Fl d_u e.2 in
  match dist st !! e.1 with
  | None => Raise KeyError
  | Some dv =>
      if ltb Fl alt dv then
        Ret (Locals (<[e.1 := alt]> (dist st))
                    (<[e.1 := Some u]> (prev st))
                    (heappush (heap st) (alt, e.1)))
      else Ret st
  end.

(** [for v, w in self.adj[u]: ...] *)
Fixpoint relax (d_u : F) (u : V) (st : locals) (l : list (V * F))
  : outcome locals :=
  match l with
  | [] => Ret st
  | e :: l' =>
      match relax_edge d_u u st e with
      | Ret st' => relax d_u u st' l'
      | Raise x => Raise x
      | OutOfFuel => OutOfFuel
      end
  end.

(** The body of [while heap], after [d_u, u = heapq.heappop(heap)] left
    [h'] in the heap. *)
Definition while_body (g : Graph) (st : locals) (d_u : F) (u : V)
    (h' : list entry) : Graph * outcome locals :=
  match dist st !! u with
  | None => (g, Raise KeyError)
  | Some du =>
      if negb (eqb Fl d_u du) then (g, Ret (Locals (dist st) (prev st) h'))
      else
        let '(g', l) := adj_getitem g u in
        (g', relax d_u u (Locals (dist st) (prev st) h') l)
  end.

(** [while heap: ...; return dist, prev] *)
Fixpoint while_heap (fuel : nat) (g : Graph) (st : locals)
  : Graph * outcome (gmap V F * gmap V (option V)) :=
  match fuel with
  | O => (g, OutOfFuel)
  | S n =>
      match heappop (heap st) with
      | None => (g, Ret (dist st, prev st))
      | Some ((d_u, u), h') =>
          match while_body g st d_u u h' with
          | (g', Ret st') => while_heap n g' st'
          | (g', Raise x) => (g', Raise x)
          | (g', OutOfFuel) => (g', OutOfFuel)
          end
      end
  end.

(** The locals when the loop is entered. *)
Definition init_locals (g : Graph) (source : V) : locals :=
  let dist0 : gmap V F := (λ _, inf Fl) <$> g in
  let prev0 : gmap V (option V) := (λ _, None) <$> g in
  Locals (<[source := zero Fl]> dist0) prev0 [(zero Fl, source)].

(** [dijkstra(source)]: the graph after the call and its outcome. *)
Definition dijkstra (fuel : nat) (g : Graph) (source : V)
  : Graph * outcome (gmap V F * gmap V (option V)) :=
  let dist0 : gmap V F := (λ _, inf Fl) <$> g in
  let prev0 : gmap V (option V) := (λ _, None) <$> g in
  match g !! source with
  | None => (g, Raise KeyError)
  | Some _ =>
      while_heap fuel g
        (Locals (<[source := zero Fl]> dist0) prev0 [(zero Fl, source)])
  end.

(** A line of the first report loop of [main]. *)
Inductive distance_line : Type :=
  | DistanceIs (d : F)
  | DistanceNone.

(** [d = dist[node]; if d == float('inf'): ... else: ...] *)
Definition report_distance (dist : gmap V F) (node : V)
  : outcome distance_line :=
  match dist !! node with
  | None => Raise KeyError
  | Some d => if eqb Fl d (inf Fl) then Ret DistanceNone else Ret (DistanceIs d)
  end.

(** [if path and path[0] == args.source], on the list
    [Graph.reconstruct_path(prev, node)] returned: whether the path is
    printed rather than the "no path" line. *)
Definition path_is_printed (source : V) (path : list V) : bool :=
  match path with
  | x :: _ => bool_decide (x = source)
  | [] => false
  end.

(** *** Graphs, paths and the sums accumulated along them *)

Definition edge (g : Graph) (u v : V) (w : F) : Prop :=
  ∃ l, g !! u = Some l ∧ (v, w) ∈ l.

(** Every neighbour is a key and no stored weight is below zero. *)
Definition wf_graph (g : Graph) : Prop :=
  ∀ u v w, edge g u v w → v ∈ dom g ∧ le Fl (zero Fl) w.

Fixpoint is_path (g : Graph) (a b : V) (p : list (V * V * F)) : Prop :=
  match p with
  | [] => a = b
  | e :: p' => e.1.1 = a ∧ edge g a e.1.2 e.2 ∧ is_path g e.1.2 b p'
  end.

(** The weight of a path as the source accumulates it: starting from
    [start], each edge weight is added in turn, in float arithmetic. *)
Definition path_sum_from (start : F) (p : list (V * V * F)) : F :=
  foldl (λ acc e, add Fl acc e.2) start p.

Definition path_sum (p : list (V * V * F)) : F := path_sum_from (zero Fl) p.

(** [z] is the least accumulated sum of a path from [a] to [b]. *)
Definition least_path_sum (g : Graph) (a b : V) (z : F) : Prop :=
  (∃ p, is_path g a b p ∧ path_sum p = z) ∧
  (∀ p, is_path g a b p → le Fl z (path_sum p)).

(** The vertices of the list are joined by edges, and the weights of these
    edges, accumulated from 0.0 in the order of the list, give [z]. *)
Fixpoint vertex_path_from (g : Graph) (start : F) (vs : list V) (z : F)
  : Prop :=
  match vs with
  | [] => False
  | a :: vs' =>
      match vs' with
      | [] => z = start
      | b :: _ => ∃ w, edge g a b w ∧ vertex_path_from g (add Fl start w) vs' z
      end
  end.

Definition outdeg (g : Graph) (u : V) : nat :=
  length (default [] (g !! u)).

Definition edge_count (g : Graph) : nat :=
  sum_list_with (λ kv, length kv.2) (map_to_list g).

Definition dijkstra_fuel (g : Graph) : nat := S (S (edge_count g)).

Definition reconstruct_fuel (g : Graph) : nat := S (S (size (dom g))).

(** *** The loop invariant *)

Definition relaxed (st : locals) (x : V) (l : list (V * F)) : Prop :=
  ∀ d v w, dist st !! x = Some d → (v, w) ∈ l →
    ∃ dv, dist st !! v = Some dv ∧ le Fl dv (add Fl d w).

Definition all_relaxed (g : Graph) (done : list V) (st : locals) : Prop :=
  ∀ x l, x ∈ done → g !! x = Some l → relaxed st x l.

(** [done] lists the vertices popped with a current entry, in that order;
    [m] is the distance of the last of them. *)
Record inv (g : Graph) (s : V) (done : list V) (m : F) (st : locals)
  : Prop := Inv {
  inv_dom_dist : dom (dist st) = dom g;
  inv_dom_prev : dom (prev st) = dom g;
  inv_src_dist : dist st !! s = Some (zero Fl);
  inv_src_prev : prev st !! s = Some None;
  inv_level : le Fl (zero Fl) m ∧ m ≠ inf Fl;
  inv_nonneg : ∀ v d, dist st !! v = Some d → le Fl (zero Fl) d;
  inv_sound : ∀ v d, dist st !! v = Some d → d ≠ inf Fl →
    ∃ p, is_path g s v p ∧ path_sum p = d;
  inv_pending : ∀ v d, dist st !! v = Some d → d ≠ inf Fl →
    v ∈ done ∨ (d, v) ∈ heap st;
  inv_heap : ∀ d y, (d, y) ∈ heap st →
    d ≠ inf Fl ∧ le Fl m d ∧ ∃ dy, dist st !! y = Some dy ∧ le Fl dy d;
  inv_nodup : NoDup (heap st);
  inv_done_nodup : NoDup done;
  inv_done : ∀ x, x ∈ done →
    ∃ d, dist st !! x = Some d ∧ d ≠ inf Fl ∧ le Fl d m ∧ (d, x) ∉ heap st;
  inv_prev : ∀ v u, prev st !! v = Some (Some u) →
    (pos done u < pos done v)%nat ∧
    ∃ du w, dist st !! u = Some du ∧ edge g u v w ∧
            dist st !! v = Some (add Fl du w) ∧ add Fl du w ≠ inf Fl;
  inv_prev_some : ∀ v d, dist st !! v = Some d → d ≠ inf Fl →
    v = s ∨ ∃ u, prev st !! v = Some (Some u)
}.

End Code.

(** Binary64: Rocq's primitive floats, which add and compare as Python's
    floats do. *)
Definition prim_ops : ops PrimFloat.float :=
  Ops PrimFloat.zero PrimFloat.infinity PrimFloat.add PrimFloat.ltb
      PrimFloat.eqb.

(** A small arithmetic with the same shape, for examples: the integers from
    0 with an infinity, where a sum above [cap] overflows to infinity. *)
Definition capped_add (cap : Z) (a b : num) : num :=
  match a, b with
  | Fin x, Fin y => if x + y <=? cap then Fin (x + y) else PInf
  | _, _ => PInf
  end.

Definition capped_ops (cap : Z) : ops num :=
  Ops (Fin 0) PInf (capped_add cap) num_ltb (λ a b, bool_decide (a = b)).

End F64.

(** The graph after [add_edge("A", "B", w)] and [add_edge("B", "C", w)]
    with [w = 2.0 ** 1023], a finite float whose double overflows. *)
Definition overflow_graph : gmap string (list (string * PrimFloat.float)) :=
  (F64.add_edge F64.prim_ops (λ _, None)
     (F64.add_edge F64.prim_ops (λ _, None) ∅
        "A"%string "B"%string (F64.PyFloat 0x1p+1023%float) false).1
     "B"%string "C"%string (F64.PyFloat 0x1p+1023%float) false).1.

(** The maps [dijkstra("A")] returns on [overflow_graph]. *)
Definition overflow_dist : gmap string PrimFloat.float :=
  list_to_map [("A", 0%float); ("B", 0x1p+1023%float);
               ("C", PrimFloat.infinity)]%string.

Definition overflow_prev : gmap string (option string) :=
  list_to_map [("A", None); ("B", Some "A"); ("C", None)]%string.

(** The graph after [add_edge("A", "B", 2.0 ** 53)] and
    [add_edge("B", "C", 1.0)]: the sum of the two weights is not a float. *)
Definition rounding_graph : gmap string (list (string * PrimFloat.float)) :=
  (F64.add_edge F64.prim_ops (λ _, None)
     (F64.add_edge F64.prim_ops (λ _, None) ∅
        "A"%string "B"%string (F64.PyFloat 0x1p+53%float) false).1
     "B"%string "C"%string (F64.PyFloat 1%float) false).1.

(** The same two edges with weight 7 in the arithmetic capped at 10. *)
Definition capped_graph : gmap string (list (string * num)) :=
  <["A"%string := [("B"%string, Fin 7)]]>
    (<["B"%string := [("C"%string, Fin 7)]]>
       (<["C"%string := []]> ∅)).


(** ** Order on distances *)

Lemma num_le_fin a b : num_le (Fin a) (Fin b) ↔ a ≤ b.
Proof. unfold num_le; simpl. rewrite Z.ltb_ge. done. Qed.

Lemma num_lt_fin a b : num_ltb (Fin a) (Fin b) = true ↔ a < b.
Proof. simpl. apply Z.ltb_lt. Qed.

Lemma num_le_inf a : num_le a PInf.
Proof. by destruct a. Qed.

Lemma num_le_refl a : num_le a a.
Proof. destruct a; [apply num_le_fin; lia | done]. Qed.

Lemma num_le_trans a b c : num_le a b → num_le b c → num_le a c.
Proof.
  destruct a, b, c; rewrite ?num_le_fin; try done; try lia.
Qed.

Lemma num_ltb_le a b : num_ltb a b = true → num_le a b.
Proof.
  destruct a, b; try done. rewrite num_lt_fin, num_le_fin. lia.
Qed.

Lemma num_ltb_irrefl a : num_ltb a a = false.
Proof. destruct a; [apply Z.ltb_irrefl | done]. Qed.

Lemma num_le_antisym a b : num_le a b → num_le b a → a = b.
Proof.
  destruct a, b; rewrite ?num_le_fin; try done. intros. f_equal. lia.
Qed.

Lemma num_le_ltb_trans a b c : num_ltb a b = true → num_le b c → num_ltb a c = true.
Proof.
  destruct a, b, c; rewrite ?num_le_fin, ?num_lt_fin; try done. lia.
Qed.

(** The code's stale test and the specification's agree on every entry
    that is not below the recorded distance. *)
Lemma stale_tests_agree (d du : num) :
  num_le du d → (d ≠ du ↔ num_ltb du d = true).
Proof.
  intros Hle. split.
  - intros Hne. destruct (num_ltb du d) eqn:E; [done|].
    destruct Hne. by apply num_le_antisym.
  - intros Hlt ->. by rewrite num_ltb_irrefl in Hlt.
Qed.

Section Proofs.
Context {V : Type} `{Countable V}.
Variable vltb : V → V → bool.

#[local] Abbreviation Graph := (gmap V (list (V * Z))).
#[local] Abbreviation entry := (num * V)%type.
Implicit Types (g : Graph) (st : locals (V:=V)) (h : list entry) (u v s x y : V).

(** ** Positions in the processing order *)

Lemma pos_lt_length (l : list V) x : (pos l x < length l)%nat ↔ x ∈ l.
Proof.
  induction l as [|a l IH]; simpl.
  - split; [lia | by intros ?%elem_of_nil].
  - case_decide; subst.
    + split; [intros _; left | lia].
    + rewrite elem_of_cons, <- IH. split; [intros; right; lia | intros [?|?]; [done | lia]].
Qed.

Lemma pos_le_length (l : list V) x : (pos l x ≤ length l)%nat.
Proof. induction l; simpl; [lia | case_decide; lia]. Qed.

Lemma pos_app_in (l l' : list V) x : x ∈ l → pos (l ++ l') x = pos l x.
Proof.
  induction l as [|a l IH]; simpl; [by intros ?%elem_of_nil|].
  intros Hin. case_decide; [done|].
  apply elem_of_cons in Hin as [?|?]; [done | by rewrite IH].
Qed.

Lemma pos_app_le (l l' : list V) x : (pos l x ≤ pos (l ++ l') x)%nat.
Proof. induction l; simpl; [lia | case_decide; lia]. Qed.

Lemma pos_lookup (l : list V) x : x ∈ l → l !! pos l x = Some x.
Proof.
  induction l as [|a l IH]; simpl; [by intros ?%elem_of_nil|].
  intros Hin. case_decide; subst; [done|].
  apply elem_of_cons in Hin as [?|?]; [done | by apply IH].
Qed.

(** ** The heap *)

Lemma entry_ltb_le (a b : entry) : entry_ltb vltb a b = true → num_le a.1 b.1.
Proof.
  unfold entry_ltb. intros [Hlt|[Heq _]%andb_true_iff]%orb_true_iff.
  - by apply num_ltb_le.
  - apply bool_decide_eq_true in Heq. rewrite Heq. apply num_le_refl.
Qed.

Lemma entry_ltb_ge (a b : entry) : entry_ltb vltb a b = false → num_le b.1 a.1.
Proof.
  unfold entry_ltb. intros [Hlt _]%orb_false_iff. exact Hlt.
Qed.

Lemma heap_min_in (best : entry) h : heap_min vltb best h ∈ best :: h.
Proof.
  revert best. induction h as [|e h IH]; intros best; simpl; [left|].
  specialize (IH (if entry_ltb vltb e best then e else best)).
  apply elem_of_cons in IH as [->|?].
  - destruct (entry_ltb vltb e best); [right; left | left].
  - right; by right.
Qed.

Lemma heap_min_le (best : entry) h e :
  e ∈ best :: h → num_le (heap_min vltb best h).1 e.1.
Proof.
  revert best e. induction h as [|a h IH]; intros best e; simpl.
  - intros ->%list_elem_of_singleton. apply num_le_refl.
  - set (b' := if entry_ltb vltb a best then a else best).
    assert (num_le b'.1 best.1 ∧ num_le b'.1 a.1) as [Hb Ha].
    { unfold b'. destruct (entry_ltb vltb a best) eqn:E.
      - split; [by apply entry_ltb_le | apply num_le_refl].
      - split; [apply num_le_refl | by apply entry_ltb_ge]. }
    intros [Heq|[Heq|Hin]%elem_of_cons]%elem_of_cons.
    + rewrite Heq. eapply num_le_trans; [apply (IH b'); left | done].
    + rewrite Heq. eapply num_le_trans; [apply (IH b'); left | done].
    + apply IH. by right.
Qed.

Lemma remove_first_subseteq (e x : entry) h : x ∈ remove_first e h → x ∈ h.
Proof.
  induction h as [|a h IH]; simpl; [done|].
  case_decide; [by right|].
  intros [->|?]%elem_of_cons; [left | right; auto].
Qed.

Lemma remove_first_other (e x : entry) h : x ∈ h → x = e ∨ x ∈ remove_first e h.
Proof.
  induction h as [|a h IH]; simpl; [by intros ?%elem_of_nil|].
  intros [->|Hin]%elem_of_cons.
  - case_decide; [by left | right; left].
  - case_decide; [by right|]. destruct (IH Hin); [by left | right; by right].
Qed.

Lemma remove_first_length (e : entry) h :
  e ∈ h → S (length (remove_first e h)) = length h.
Proof.
  induction h as [|a h IH]; simpl; [by intros ?%elem_of_nil|].
  intros Hin. case_decide; [done|]. simpl.
  apply elem_of_cons in Hin as [?|?]; [done | by rewrite IH].
Qed.

Lemma remove_first_nodup (e : entry) h :
  NoDup h → NoDup (remove_first e h) ∧ e ∉ remove_first e h.
Proof.
  induction 1 as [|a h Hnin Hnd IH]; simpl.
  - split; [constructor | by intros ?%elem_of_nil].
  - case_decide; subst; [done|]. destruct IH as [IH1 IH2]. split.
    + constructor; [|done]. intros ?%remove_first_subseteq. done.
    + intros [?|?]%elem_of_cons; done.
Qed.

(** What [heappop] returns: a smallest entry, and the rest of the heap. *)
Lemma heappop_spec h (e : entry) h' :
  heappop vltb h = Some (e, h') →
  e ∈ h ∧ h' = remove_first e h ∧ (∀ a : entry, a ∈ h → num_le e.1 a.1).
Proof.
  destruct h as [|a h]; simpl; [done|]. intros [= <- <-]. split_and!.
  - apply heap_min_in.
  - done.
  - intros x Hx. by apply heap_min_le.
Qed.

Lemma heappop_none h : heappop vltb h = None → h = [].
Proof. by destruct h. Qed.

(** [dijkstra] is the source check followed by the loop on the initial
    locals. *)
Lemma dijkstra_unfold fuel g s :
  dijkstra vltb fuel g s =
  match g !! s with
  | None => (g, Raise KeyError)
  | Some _ => while_heap vltb fuel g (init_locals g s)
  end.
Proof. reflexivity. Qed.

Lemma dijkstra_strict_spec_unfold fuel g s :
  dijkstra_strict_spec vltb fuel g s =
  match g !! s with
  | None => (g, Raise KeyError)
  | Some _ => while_heap_strict_spec vltb fuel g (init_locals g s)
  end.
Proof. reflexivity. Qed.

(** ** Paths *)

Lemma is_path_app g a b c (p q : list (V * V * Z)) :
  is_path g a b p → is_path g b c q → is_path g a c (p ++ q).
Proof.
  revert a. induction p as [|e p IH]; simpl; intros a.
  - by intros ->.
  - intros (He & Hedge & Hp) Hq. split_and!; [done | done | by apply IH].
Qed.

Lemma path_weight_app (p q : list (V * V * Z)) :
  path_weight (p ++ q) = path_weight p + path_weight q.
Proof.
  induction p as [|e p IH]; simpl; [done|].
  unfold path_weight in *. simpl. rewrite IH. lia.
Qed.

Lemma is_path_snoc g a b c w (p : list (V * V * Z)) :
  is_path g a b p → edge g b c w →
  is_path g a c (p ++ [(b, c, w)]) ∧
  path_weight (p ++ [(b, c, w)]) = path_weight p + w.
Proof.
  intros Hp He. split.
  - eapply is_path_app; [done|]. simpl. done.
  - rewrite path_weight_app. unfold path_weight. simpl. lia.
Qed.

Lemma path_weight_nonneg g a b (p : list (V * V * Z)) :
  wf_graph g → is_path g a b p → 0 ≤ path_weight p.
Proof.
  intros Hwf. revert a. induction p as [|e p IH]; simpl; intros a.
  - intros _. unfold path_weight. simpl. lia.
  - intros (_ & He & Hp). apply Hwf in He as [_ Hw].
    specialize (IH _ Hp). unfold path_weight in *. simpl. lia.
Qed.

Lemma is_path_dom g a b (p : list (V * V * Z)) :
  wf_graph g → a ∈ dom g → is_path g a b p → b ∈ dom g.
Proof.
  intros Hwf. revert a. induction p as [|e p IH]; simpl; intros a Ha.
  - by intros <-.
  - intros (_ & He & Hp). apply Hwf in He as [Hd _]. by apply (IH _ Hd).
Qed.

(** ** Counting edges *)

Lemma edge_count_delete g x l :
  g !! x = Some l → edge_count g = (length l + edge_count (delete x g))%nat.
Proof.
  intros Hx. unfold edge_count.
  rewrite <- (map_to_list_delete g x l Hx). done.
Qed.

Lemma sum_outdeg_le (l : list V) g :
  NoDup l → (∀ x, x ∈ l → x ∈ dom g) →
  (sum_list_with (outdeg g) l ≤ edge_count g)%nat.
Proof.
  intros Hnd. revert g. induction Hnd as [|x l Hnin Hnd IH]; intros g Hdom.
  - simpl. lia.
  - assert (x ∈ dom g) as [lx Hx]%elem_of_dom by (apply Hdom; left).
    rewrite (edge_count_delete g x lx Hx). simpl.
    unfold outdeg at 1. rewrite Hx. simpl.
    assert (sum_list_with (outdeg g) l = sum_list_with (outdeg (delete x g)) l) as ->.
    { clear IH Hnd. induction l as [|y l IHl]; [done|]. simpl.
      rewrite IHl.
      - f_equal. unfold outdeg. rewrite lookup_delete_ne; [done|].
        intros ->. apply Hnin. left.
      - intros ?. apply Hnin. by right.
      - intros z Hz. apply Hdom. apply elem_of_cons in Hz as [->|Hz]; [left|].
        right. by right. }
    assert (sum_list_with (outdeg (delete x g)) l ≤ edge_count (delete x g))%nat; [|lia].
    apply IH. intros y Hy. rewrite dom_delete_L.
    apply elem_of_difference. split; [apply Hdom; by right|].
    intros ->%elem_of_singleton. done.
Qed.

(** ** add_edge keeps the graph well formed *)

Lemma adj_getitem_spec g u :
  ∃ l, adj_getitem g u = (<[u := l]> g, l) ∧ l = default [] (g !! u).
Proof.
  unfold adj_getitem. destruct (g !! u) as [l|] eqn:E; simpl.
  - exists l. by rewrite insert_id.
  - by exists [].
Qed.

Lemma adj_getitem_known g u l : g !! u = Some l → adj_getitem g u = (g, l).
Proof. unfold adj_getitem. by intros ->. Qed.

Lemma add_edge_ok g u v w undirected :
  0 ≤ w → add_edge g u v w undirected = (add_edge_graph g u v w undirected, Ret ()).
Proof.
  intros Hw. unfold add_edge, add_edge_graph.
  destruct (Z.ltb_spec w 0); [lia|].
  destruct (adj_getitem_spec g u) as (lu & -> & ->).
  rewrite insert_insert_eq.
  set (g1 := <[u := _]> g).
  set (g2 := match g1 !! v with Some _ => g1 | None => <[v := []]> g1 end).
  destruct undirected; [|done].
  destruct (adj_getitem_spec g2 v) as (lv & -> & ->).
  by rewrite insert_insert_eq.
Qed.

Lemma edge_append g u v w a b c :
  edge (<[u := default [] (g !! u) ++ [(v, w)]]> g) a b c ↔
  edge g a b c ∨ (a = u ∧ b = v ∧ c = w).
Proof.
  unfold edge. destruct (decide (a = u)) as [->|Hne].
  - rewrite lookup_insert_eq. split.
    + intros (l & [= <-] & Hin). apply elem_of_app in Hin as [Hin|Hin].
      * left. destruct (g !! u) as [l0|]; simpl in Hin; [eauto|].
        by apply elem_of_nil in Hin.
      * apply list_elem_of_singleton in Hin as [= -> ->]. by right.
    + intros [(l & Hl & Hin)|(_ & -> & ->)]; eexists; (split; [done|]).
      * rewrite Hl. simpl. apply elem_of_app. by left.
      * apply elem_of_app. right. left.
  - rewrite lookup_insert_ne by done. split; [by left|].
    intros [?|(? & _)]; done.
Qed.

Lemma edge_ensure_key g v a b c :
  edge (match g !! v with Some _ => g | None => <[v := []]> g end) a b c ↔
  edge g a b c.
Proof.
  destruct (g !! v) eqn:E; [done|]. unfold edge.
  destruct (decide (a = v)) as [->|Hne].
  - rewrite lookup_insert_eq, E. split.
    + intros (l & [= <-] & Hin). by apply elem_of_nil in Hin.
    + intros (l & ? & _). done.
  - by rewrite lookup_insert_ne.
Qed.

Lemma add_edge_graph_edge g u v w undirected a b c :
  edge (add_edge_graph g u v w undirected) a b c ↔
  edge g a b c ∨ (a = u ∧ b = v ∧ c = w) ∨
  (undirected = true ∧ a = v ∧ b = u ∧ c = w).
Proof.
  clear vltb.
  unfold add_edge_graph. destruct undirected.
  - rewrite edge_append, edge_ensure_key, edge_append. tauto.
  - rewrite edge_ensure_key, edge_append. split; [tauto|].
    intros [?|[?|(? & _)]]; [tauto | tauto | done].
Qed.

Lemma dom_ensure_key g v :
  dom (match g !! v with Some _ => g | None => <[v := []]> g end) = dom g ∪ {[v]}.
Proof.
  clear vltb.
  destruct (g !! v) eqn:E.
  - assert (v ∈ dom g) by (apply elem_of_dom; eauto). set_solver.
  - rewrite dom_insert_L. set_solver.
Qed.

Lemma add_edge_graph_dom g u v w undirected :
  dom (add_edge_graph g u v w undirected) = dom g ∪ {[u; v]}.
Proof.
  clear vltb.
  unfold add_edge_graph. destruct undirected;
    rewrite ?dom_insert_L, dom_ensure_key, dom_insert_L; set_solver.
Qed.

Lemma wf_empty : wf_graph (empty_graph (V:=V)).
Proof.
  intros u v w (l & Hl & _). unfold empty_graph in Hl.
  by rewrite lookup_empty in Hl.
Qed.

Lemma add_edge_graph_wf g u v w undirected :
  0 ≤ w → wf_graph g → wf_graph (add_edge_graph g u v w undirected).
Proof.
  clear vltb.
  intros Hw Hwf a b c. rewrite add_edge_graph_edge, add_edge_graph_dom.
  intros [He|[(-> & -> & ->)|(_ & -> & -> & ->)]].
  - apply Hwf in He as [? ?]. split; [set_solver | done].
  - split; [set_solver | done].
  - split; [set_solver | done].
Qed.

(** ** The invariant holds when the loop is entered *)

Lemma init_dist_fin g s v d :
  dist (init_locals g s) !! v = Some (Fin d) → v = s ∧ d = 0.
Proof.
  unfold init_locals; simpl. destruct (decide (s = v)) as [->|Hne].
  - rewrite lookup_insert_eq. by intros [= <-].
  - rewrite lookup_insert_ne, lookup_fmap by done.
    destruct (g !! v); simpl; done.
Qed.

Lemma inv_init g s l :
  g !! s = Some l → inv g s [] 0 (init_locals g s).
Proof.
  clear vltb.
  intros Hs. assert (s ∈ dom g) as Hdom by (apply elem_of_dom; eauto).
  constructor.
  - simpl. rewrite dom_insert_L, dom_fmap_L. set_solver.
  - simpl. by rewrite dom_fmap_L.
  - simpl. by rewrite lookup_insert_eq.
  - simpl. by rewrite lookup_fmap, Hs.
  - lia.
  - intros v d [-> ->]%init_dist_fin. by exists [].
  - intros v d [-> ->]%init_dist_fin. right. simpl. left.
  - simpl. intros d y [= -> ->]%list_elem_of_singleton.
    exists 0, (Fin 0). rewrite lookup_insert_eq.
    split_and!; [done | lia | done | apply num_le_refl].
  - simpl. apply NoDup_singleton.
  - constructor.
  - by intros x ?%elem_of_nil.
  - simpl. intros v u. rewrite lookup_fmap. destruct (g !! v); simpl; done.
  - intros v d [-> ->]%init_dist_fin. by left.
Qed.

Lemma all_relaxed_init g s : all_relaxed g [] (init_locals g s).
Proof. by intros x l ?%elem_of_nil. Qed.

(** ** Popping an entry *)

Lemma inv_pop_stale g s done m st d u h' du :
  inv g s done m st →
  heappop vltb (heap st) = Some ((d, u), h') →
  dist st !! u = Some du → d ≠ du →
  inv g s done m (Locals (dist st) (prev st) h').
Proof.
  intros [] (Hin & -> & Hmin)%heappop_spec Hu Hne.
  constructor; simpl; try done.
  - intros v dv Hv. destruct (inv_pending0 v dv Hv) as [?|Hh]; [by left|].
    right. apply (remove_first_other (d, u)) in Hh as [[= <- ->]|?]; [|done].
    congruence.
  - intros d' y Hy%remove_first_subseteq. by apply inv_heap0.
  - by apply remove_first_nodup.
  - intros x Hx. destruct (inv_done0 x Hx) as (dx & ? & ? & Hnin).
    exists dx. split_and!; [done..|]. by intros ?%remove_first_subseteq.
Qed.

Lemma inv_pop_fresh g s done m st d u h' :
  inv g s done m st →
  heappop vltb (heap st) = Some ((d, u), h') →
  dist st !! u = Some d →
  ∃ z, d = Fin z ∧ m ≤ z ∧ (u ∉ done) ∧
       inv g s (done ++ [u]) z (Locals (dist st) (prev st) h').
Proof.
  intros [] (Hin & -> & Hmin)%heappop_spec Hu.
  destruct (inv_heap0 d u Hin) as (z & dy & -> & Hmz & _ & _).
  assert (u ∉ done) as Hnd.
  { intros (dx & Hdx & _ & Hnin)%inv_done0. congruence. }
  exists z. split_and!; [done..|].
  constructor; simpl; try done.
  - lia.
  - intros v dv Hv. destruct (inv_pending0 v dv Hv) as [?|Hh].
    + left. apply elem_of_app. by left.
    + apply (remove_first_other (Fin z, u)) in Hh as [[= -> ->]|?]; [|by right].
      left. apply elem_of_app. right. left.
  - intros d' y Hy. pose proof (remove_first_subseteq _ _ _ Hy) as Hy'.
    destruct (inv_heap0 d' y Hy') as (z' & dy' & -> & ? & ? & ?).
    exists z', dy'. split_and!; [done| |done..].
    specialize (Hmin _ Hy'). simpl in Hmin. by apply num_le_fin in Hmin.
  - by apply remove_first_nodup.
  - apply NoDup_app. split_and!; [done| |apply NoDup_singleton].
    intros x ? ->%list_elem_of_singleton. done.
  - intros x [Hx | ->%list_elem_of_singleton]%elem_of_app.
    + destruct (inv_done0 x Hx) as (dx & ? & ? & Hnin).
      exists dx. split_and!; [done|lia|]. by intros ?%remove_first_subseteq.
    + exists z. split_and!; [done|lia|]. by apply remove_first_nodup.
  - intros v u' Hp. destruct (inv_prev0 v u' Hp) as [Hlt Hrest]. split; [|done].
    assert (u' ∈ done).
    { apply pos_lt_length. pose proof (pos_le_length done v). lia. }
    rewrite (pos_app_in done [u] u') by done.
    pose proof (pos_app_le done [u] v). lia.
Qed.

(** ** Relaxing the edges of a popped vertex *)

Lemma pos_not_in (l : list V) x : x ∉ l → pos l x = length l.
Proof.
  intros Hnin. pose proof (pos_le_length l x).
  destruct (decide (pos l x < length l)%nat) as [Hlt|]; [|lia].
  by apply pos_lt_length in Hlt.
Qed.

Lemma relax_edge_inv g s done m st u v w :
  wf_graph g → inv g s done m st → u ∈ done →
  dist st !! u = Some (Fin m) → edge g u v w →
  ∃ st', relax_edge (Fin m) u st (v, w) = Ret st' ∧
    inv g s done m st' ∧
    (length (heap st') ≤ S (length (heap st)))%nat ∧
    (∀ x, x ∈ done → dist st' !! x = dist st !! x) ∧
    (∀ x dx, dist st !! x = Some dx →
       ∃ dx', dist st' !! x = Some dx' ∧ num_le dx' dx) ∧
    relaxed st' u [(v, w)].
Proof.
  intros Hwf Hinv Hu Hdu He. destruct (Hwf _ _ _ He) as [Hv Hw].
  pose proof Hinv as [].
  assert (is_Some (dist st !! v)) as [dv Hdv].
  { apply elem_of_dom. by rewrite inv_dom_dist0. }
  unfold relax_edge. cbn [fst snd num_add]. rewrite Hdv.
  destruct (num_ltb (Fin (m + w)) dv) eqn:Hlt.
  - (* the distance of [v] improves *)
    assert (v ∉ done) as Hvd.
    { intros (d' & Hd' & Hle & _)%inv_done0. rewrite Hdv in Hd'.
      injection Hd' as ->. apply num_lt_fin in Hlt. lia. }
    assert (v ≠ u) as Hvu by (by intros ->).
    assert (v ≠ s) as Hvs.
    { intros ->. rewrite inv_src_dist0 in Hdv. injection Hdv as <-.
      apply num_lt_fin in Hlt. lia. }
    eexists. split; [done|]. split_and!.
    + constructor; simpl; try done.
      * rewrite dom_insert_lookup_L; eauto.
      * rewrite dom_insert_lookup_L; [done|].
        apply elem_of_dom. by rewrite inv_dom_prev0.
      * by rewrite lookup_insert_ne.
      * by rewrite lookup_insert_ne.
      * intros x d. destruct (decide (v = x)) as [<-|Hne].
        -- rewrite lookup_insert_eq. intros [= <-].
           destruct (inv_sound0 u m Hdu) as (p & Hp & Hpw).
           destruct (is_path_snoc g s u v w p Hp He) as [Hp' Hw'].
           eexists. split; [done|]. lia.
        -- rewrite lookup_insert_ne by done. apply inv_sound0.
      * intros x d. unfold heappush. destruct (decide (v = x)) as [<-|Hne].
        -- rewrite lookup_insert_eq. intros [= <-]. right. left.
        -- rewrite lookup_insert_ne by done. intros Hx.
           destruct (inv_pending0 x d Hx); [by left | right; by right].
      * unfold heappush. intros d y [[= -> ->]|Hy]%elem_of_cons.
        -- exists (m + w), (Fin (m + w)). rewrite lookup_insert_eq.
           split_and!; [done | lia | done | apply num_le_refl].
        -- destruct (inv_heap0 d y Hy) as (z & dy & -> & ? & Hy1 & Hy2).
           destruct (decide (v = y)) as [<-|Hne].
           ++ exists z, (Fin (m + w)). rewrite lookup_insert_eq.
              split_and!; [done..|]. rewrite Hdv in Hy1. injection Hy1 as <-.
              apply num_ltb_le. eapply num_le_ltb_trans; done.
           ++ exists z, dy. by rewrite lookup_insert_ne.
      * unfold heappush. constructor; [|done]. intros Hin.
        destruct (inv_heap0 _ _ Hin) as (z & dy & _ & _ & Hy1 & Hy2).
        rewrite Hdv in Hy1. injection Hy1 as <-.
        unfold num_le in Hy2. congruence.
      * intros x Hx. destruct (inv_done0 x Hx) as (d & ? & ? & Hnin).
        assert (v ≠ x) by (by intros ->).
        exists d. rewrite lookup_insert_ne by done. split_and!; [done..|].
        unfold heappush. intros [[= _ ->]|?]%elem_of_cons; done.
      * intros x y. destruct (decide (v = x)) as [<-|Hne].
        -- rewrite lookup_insert_eq. intros [= <-]. split.
           ++ rewrite (pos_not_in done v) by done. by apply pos_lt_length.
           ++ exists m, w. rewrite lookup_insert_eq, lookup_insert_ne by done.
              done.
        -- rewrite lookup_insert_ne by done. intros Hp.
           destruct (inv_prev0 x y Hp) as [Hpos (du & w' & Hy & Hxy & Hx)].
           split; [done|]. exists du, w'.
           assert (y ∈ done).
           { apply pos_lt_length. pose proof (pos_le_length done x). lia. }
           assert (v ≠ y) by (by intros ->).
           by rewrite !lookup_insert_ne.
      * intros x d. destruct (decide (v = x)) as [<-|Hne].
        -- intros _. right. exists u. by rewrite lookup_insert_eq.
        -- rewrite !lookup_insert_ne by done. apply inv_prev_some0.
    + simpl. lia.
    + simpl. intros x Hx. rewrite lookup_insert_ne; [done|]. by intros ->.
    + simpl. intros x dx Hx. destruct (decide (v = x)) as [<-|Hne].
      * rewrite lookup_insert_eq. eexists. split; [done|].
        rewrite Hdv in Hx. injection Hx as <-. by apply num_ltb_le.
      * rewrite lookup_insert_ne by done. exists dx. split; [done|].
        apply num_le_refl.
    + intros d v' w'. simpl. rewrite lookup_insert_ne by done.
      rewrite Hdu. intros [= <-] [= -> ->]%list_elem_of_singleton.
      rewrite lookup_insert_eq. eexists. split; [done|]. apply num_le_refl.
  - (* no improvement *)
    exists st. split_and!; try done.
    + lia.
    + intros x dx Hx. exists dx. split; [done | apply num_le_refl].
    + intros d v' w'. rewrite Hdu.
      intros [= <-] [= -> ->]%list_elem_of_singleton. by exists dv.
Qed.

Lemma relaxed_mono st st' x (l : list (V * Z)) :
  dist st' !! x = dist st !! x →
  (∀ y dy, dist st !! y = Some dy →
     ∃ dy', dist st' !! y = Some dy' ∧ num_le dy' dy) →
  relaxed st x l → relaxed st' x l.
Proof.
  intros Hx Hmono Hrel d v w Hd Hin. rewrite Hx in Hd.
  destruct (Hrel d v w Hd Hin) as (dv & Hdv & Hle).
  destruct (Hmono v dv Hdv) as (dv' & ? & ?).
  exists dv'. split; [done|]. by eapply num_le_trans.
Qed.

Lemma relax_inv g s done m u (l : list (V * Z)) : ∀ st,
  wf_graph g → inv g s done m st → u ∈ done →
  dist st !! u = Some (Fin m) → (∀ v w, (v, w) ∈ l → edge g u v w) →
  ∃ st', relax (Fin m) u st l = Ret st' ∧
    inv g s done m st' ∧
    (length (heap st') ≤ length (heap st) + length l)%nat ∧
    (∀ x, x ∈ done → dist st' !! x = dist st !! x) ∧
    (∀ x dx, dist st !! x = Some dx →
       ∃ dx', dist st' !! x = Some dx' ∧ num_le dx' dx) ∧
    relaxed st' u l.
Proof.
  induction l as [|[v w] l IH]; intros st Hwf Hinv Hu Hdu Hedges.
  - exists st. simpl. split_and!; try done.
    + lia.
    + intros x dx Hx. exists dx. split; [done | apply num_le_refl].
    + intros d v w _ ?%elem_of_nil. done.
  - destruct (relax_edge_inv g s done m st u v w) as
      (st1 & Hrun & Hinv1 & Hlen1 & Hsame1 & Hmono1 & Hrel1); try done.
    { apply Hedges. left. }
    destruct (IH st1) as (st2 & Hrun2 & Hinv2 & Hlen2 & Hsame2 & Hmono2 & Hrel2);
      try done.
    { rewrite Hsame1; done. }
    { intros ???. apply Hedges. by right. }
    exists st2. simpl. rewrite Hrun. split_and!; try done.
    + simpl. lia.
    + intros x Hx. rewrite Hsame2, Hsame1; done.
    + intros x dx Hx. destruct (Hmono1 x dx Hx) as (d1 & Hd1 & Hle1).
      destruct (Hmono2 x d1 Hd1) as (d2 & Hd2 & Hle2).
      exists d2. split; [done|]. by eapply num_le_trans.
    + assert (relaxed st2 u [(v, w)]) as Hrel1'.
      { eapply relaxed_mono; [by apply Hsame2 | done | done]. }
      intros d v' w' Hd [[= -> ->]|Hin]%elem_of_cons.
      * apply (Hrel1' d v w Hd). left.
      * by apply (Hrel2 d v' w' Hd).
Qed.

(** ** The loop runs to completion and keeps the invariant *)

Lemma inv_done_dom g s done m st x : inv g s done m st → x ∈ done → x ∈ dom g.
Proof.
  intros [] (d & Hd & _)%inv_done0. rewrite <- inv_dom_dist0.
  apply elem_of_dom. eauto.
Qed.

(** One iteration: the body returns, leaves the graph alone, keeps the
    invariant, and pays for its pushes with the edges of the vertex it has
    just processed. *)
Lemma while_body_inv g s done m st d u h' :
  wf_graph g → inv g s done m st → all_relaxed g done st →
  heappop vltb (heap st) = Some ((d, u), h') →
  ∃ st' done' m',
    while_body g st d u h' = (g, Ret st') ∧
    inv g s done' m' st' ∧ all_relaxed g done' st' ∧
    (length (heap st') + sum_list_with (outdeg g) done
     < length (heap st) + sum_list_with (outdeg g) done')%nat.
Proof.
  intros Hwf Hinv Hrel Hpop.
  pose proof (heappop_spec _ _ _ Hpop) as (Hin & Hh' & _).
  pose proof (remove_first_length _ _ Hin) as Hlen. rewrite <- Hh' in Hlen.
  destruct (inv_heap _ _ _ _ _ Hinv d u Hin) as (z & du & -> & _ & Hdu & _).
  unfold while_body. rewrite Hdu. destruct (decide (Fin z = du)) as [<-|Hne].
  - (* a current entry: relax the edges of [u] *)
    rewrite decide_False by (intros ?; done).
    destruct (inv_pop_fresh g s done m st _ u h' Hinv Hpop Hdu)
      as (z' & [= <-] & Hmz & Hnd & Hinv1).
    assert (u ∈ dom g) as [l Hl]%elem_of_dom.
    { rewrite <- (inv_dom_dist _ _ _ _ _ Hinv). apply elem_of_dom. eauto. }
    rewrite (adj_getitem_known g u l Hl).
    destruct (relax_inv g s (done ++ [u]) z u l
                (Locals (dist st) (prev st) h'))
      as (st2 & Hrun & Hinv2 & Hlen2 & Hsame & Hmono & Hrelu); try done.
    { apply elem_of_app. right. left. }
    { intros v w Hvw. by exists l. }
    rewrite Hrun. exists st2, (done ++ [u]), z. split_and!; [done..| |].
    + intros x lx [Hx | ->%list_elem_of_singleton]%elem_of_app Hlx.
      * eapply (relaxed_mono (Locals (dist st) (prev st) h')).
        -- apply Hsame. apply elem_of_app. by left.
        -- done.
        -- exact (Hrel x lx Hx Hlx).
      * rewrite Hl in Hlx. by injection Hlx as <-.
    + rewrite sum_list_with_app. simpl. unfold outdeg at 3. rewrite Hl.
      simpl in *. lia.
  - (* a stale entry *)
    rewrite decide_True by done.
    exists (Locals (dist st) (prev st) h'), done, m. split_and!; [done| |done|].
    + by eapply inv_pop_stale.
    + simpl. lia.
Qed.

Lemma while_heap_inv g s : wf_graph g → ∀ fuel done m st,
  inv g s done m st → all_relaxed g done st →
  (length (heap st) + edge_count g < fuel + sum_list_with (outdeg g) done)%nat →
  ∃ dist' prev' done' m',
    while_heap vltb fuel g st = (g, Ret (dist', prev')) ∧
    inv g s done' m' (Locals dist' prev' []) ∧
    all_relaxed g done' (Locals dist' prev' []).
Proof.
  intros Hwf. induction fuel as [|n IH]; intros done m st Hinv Hrel Hfuel.
  { pose proof (sum_outdeg_le done g (inv_done_nodup _ _ _ _ _ Hinv)
      (λ x, inv_done_dom g s done m st x Hinv)). lia. }
  simpl. destruct (heappop vltb (heap st)) as [[[d u] h']|] eqn:Hpop.
  - destruct (while_body_inv g s done m st d u h') as
      (st' & done' & m' & -> & Hinv' & Hrel' & Hdec); try done.
    apply (IH done' m' st' Hinv' Hrel'). lia.
  - apply heappop_none in Hpop. destruct st as [d p h]; simpl in *; subst h.
    by exists d, p, done, m.
Qed.

(** Whatever the fuel, the loop on a well-formed graph raises nothing and
    leaves the graph as it was. *)
Lemma while_heap_no_raise g s : wf_graph g → ∀ fuel done m st,
  inv g s done m st → all_relaxed g done st →
  ∃ r, while_heap vltb fuel g st = (g, r) ∧ ∀ e, r ≠ Raise e.
Proof.
  intros Hwf. induction fuel as [|n IH]; intros done m st Hinv Hrel.
  { by exists OutOfFuel. }
  simpl. destruct (heappop vltb (heap st)) as [[[d u] h']|] eqn:Hpop.
  - destruct (while_body_inv g s done m st d u h') as
      (st' & done' & m' & -> & Hinv' & Hrel' & _); try done.
    by apply (IH done' m' st').
  - by eexists.
Qed.

(** More fuel does not change a result. *)
Lemma while_heap_fuel_mono n n' g st g' r :
  while_heap vltb n g st = (g', Ret r) → (n ≤ n')%nat →
  while_heap vltb n' g st = (g', Ret r).
Proof.
  revert n' g st. induction n as [|n IH]; intros n' g st; simpl; [done|].
  intros Hrun Hle. destruct n' as [|n']; [lia|]. simpl.
  destruct (heappop vltb (heap st)) as [[[d u] h']|]; [|done].
  destruct (while_body g st d u h') as [g1 [st1| |]]; [|done..].
  apply IH; [done | lia].
Qed.

(** The result of [dijkstra] on a well-formed graph, with the invariant it
    satisfies when the heap has run empty. *)
Lemma dijkstra_inv g s fuel :
  wf_graph g → s ∈ dom g → (dijkstra_fuel g ≤ fuel)%nat →
  ∃ dist' prev' done m,
    dijkstra vltb fuel g s = (g, Ret (dist', prev')) ∧
    inv g s done m (Locals dist' prev' []) ∧
    all_relaxed g done (Locals dist' prev' []).
Proof.
  intros Hwf [l Hl]%elem_of_dom Hfuel. rewrite dijkstra_unfold. rewrite Hl.
  apply (while_heap_inv g s Hwf fuel [] 0).
  - by eapply inv_init.
  - apply all_relaxed_init.
  - unfold dijkstra_fuel in Hfuel. simpl. lia.
Qed.

(** ** What the invariant gives when the heap is empty *)

Lemma final_done g s done m d p v z :
  inv g s done m (Locals d p []) → d !! v = Some (Fin z) → v ∈ done.
Proof.
  intros Hinv Hv. destruct (inv_pending _ _ _ _ _ Hinv v z Hv) as [?|Hin];
    [done | by apply elem_of_nil in Hin].
Qed.

Lemma final_lower_bound g s done m d p (pth : list (V * V * Z)) :
  inv g s done m (Locals d p []) → all_relaxed g done (Locals d p []) →
  ∀ a b da, is_path g a b pth → d !! a = Some (Fin da) →
    ∃ db, d !! b = Some (Fin db) ∧ db ≤ da + path_weight pth.
Proof.
  intros Hinv Hrel. induction pth as [|e pth IH]; simpl; intros a b da.
  - intros <- Ha. exists da. split; [done|]. unfold path_weight. simpl. lia.
  - intros (_ & (l & Hl & Hin) & Hp) Ha.
    assert (a ∈ done) as Hdone by (by eapply final_done).
    destruct (Hrel a l Hdone Hl da _ _ Ha Hin) as (dv & Hdv & Hle).
    destruct dv as [dy|]; [|done]. apply num_le_fin in Hle.
    destruct (IH _ b dy Hp Hdv) as (db & Hdb & Hle').
    exists db. split; [done|]. unfold path_weight in *. simpl. lia.
Qed.

Lemma final_dist_min g s done m d p v z :
  inv g s done m (Locals d p []) → all_relaxed g done (Locals d p []) →
  d !! v = Some (Fin z) ↔ min_path_weight g s v z.
Proof.
  intros Hinv Hrel. split.
  - intros Hv. split; [by apply (inv_sound _ _ _ _ _ Hinv)|].
    intros pth Hp.
    destruct (final_lower_bound g s done m d p pth Hinv Hrel s v 0 Hp
                (inv_src_dist _ _ _ _ _ Hinv)) as (db & Hdb & Hle).
    simpl in Hdb. rewrite Hv in Hdb. injection Hdb as <-. lia.
  - intros [(pth & Hp & Hw) Hmin].
    destruct (final_lower_bound g s done m d p pth Hinv Hrel s v 0 Hp
                (inv_src_dist _ _ _ _ _ Hinv)) as (db & Hdb & Hle).
    simpl in Hdb. rewrite Hdb. do 2 f_equal.
    destruct (inv_sound _ _ _ _ _ Hinv v db Hdb) as (q & Hq & Hqw).
    specialize (Hmin q Hq). lia.
Qed.

Lemma final_dist_inf g s done m d p v :
  inv g s done m (Locals d p []) → all_relaxed g done (Locals d p []) →
  v ∈ dom g → d !! v = Some PInf ↔ ¬ reachable g s v.
Proof.
  intros Hinv Hrel Hv. split.
  - intros Hinf [pth Hp].
    destruct (final_lower_bound g s done m d p pth Hinv Hrel s v 0 Hp
                (inv_src_dist _ _ _ _ _ Hinv)) as (db & Hdb & _).
    simpl in Hdb. congruence.
  - intros Hnr. rewrite <- (inv_dom_dist _ _ _ _ _ Hinv) in Hv.
    apply elem_of_dom in Hv as [[z|] Hz]; [|done]. destruct Hnr.
    destruct (inv_sound _ _ _ _ _ Hinv v z Hz) as (pth & Hp & _).
    by exists pth.
Qed.

(** ** Walking the predecessor links back *)

Lemma final_prev_none g s done m d p v :
  inv g s done m (Locals d p []) → v ∈ dom g → v ∉ done →
  p !! v = Some None.
Proof.
  intros Hinv Hv Hnd. rewrite <- (inv_dom_prev _ _ _ _ _ Hinv) in Hv.
  apply elem_of_dom in Hv as [[u|] Hu]; [|done].
  destruct (inv_prev _ _ _ _ _ Hinv v u Hu) as (_ & du & w & _ & _ & Hd).
  destruct Hnd. by eapply final_done.
Qed.

Lemma done_length_le g s done m st :
  inv g s done m st → (length done ≤ size (dom g))%nat.
Proof.
  intros Hinv. rewrite <- (size_list_to_set (C:=gset V) done)
    by apply (inv_done_nodup _ _ _ _ _ Hinv).
  apply subseteq_size. intros x Hx%elem_of_list_to_set.
  by eapply inv_done_dom.
Qed.

(** ** What holds on any graph: the frame and the stale test *)

Lemma weak_init g s l : g !! s = Some l → weak_inv g (init_locals g s).
Proof.
  clear vltb.
  intros Hs. constructor; simpl.
  - rewrite dom_insert_L, dom_fmap_L.
    assert (s ∈ dom g) by (apply elem_of_dom; eauto). set_solver.
  - intros d y [= -> ->]%list_elem_of_singleton. exists (Fin 0).
    rewrite lookup_insert_eq. split; [done | apply num_le_refl].
Qed.

Lemma relax_edge_weak g d_u u st (e : V * Z) st' :
  weak_inv g st → relax_edge d_u u st e = Ret st' → weak_inv g st'.
Proof.
  intros [Hdom Hheap]. unfold relax_edge.
  destruct (dist st !! e.1) as [dv|] eqn:Hdv; [|done].
  destruct (num_ltb (num_add d_u (Fin e.2)) dv) eqn:Hlt; intros [= <-];
    [|done].
  constructor; simpl.
  - rewrite dom_insert_lookup_L; eauto.
  - unfold heappush. intros d y [[= -> ->]|Hy]%elem_of_cons.
    + eexists. rewrite lookup_insert_eq. split; [done | apply num_le_refl].
    + destruct (Hheap d y Hy) as (dy & Hy1 & Hy2).
      destruct (decide (e.1 = y)) as [<-|Hne].
      * eexists. rewrite lookup_insert_eq. split; [done|].
        rewrite Hdv in Hy1. injection Hy1 as <-.
        apply num_ltb_le. by eapply num_le_ltb_trans.
      * exists dy. by rewrite lookup_insert_ne.
Qed.

Lemma relax_weak g d_u u (l : list (V * Z)) : ∀ st st',
  weak_inv g st → relax d_u u st l = Ret st' → weak_inv g st'.
Proof.
  induction l as [|e l IH]; simpl; intros st st' Hw.
  - by intros [= <-].
  - destruct (relax_edge d_u u st e) as [st1| |] eqn:He; [|done..].
    apply IH. by eapply relax_edge_weak.
Qed.

Lemma pop_weak g st d u h' :
  weak_inv g st → heappop vltb (heap st) = Some ((d, u), h') →
  weak_inv g (Locals (dist st) (prev st) h') ∧
  ∃ du, dist st !! u = Some du ∧ num_le du d.
Proof.
  intros [Hdom Hheap] (Hin & -> & _)%heappop_spec. split.
  - constructor; simpl; [done|].
    intros d' y Hy%remove_first_subseteq. by apply Hheap.
  - by apply Hheap.
Qed.

(** One iteration on any graph: the graph is not touched, and the two
    stale tests take the same branch. *)
Lemma while_body_weak g st d u h' :
  weak_inv g st → heappop vltb (heap st) = Some ((d, u), h') →
  ∃ r, while_body g st d u h' = (g, r) ∧
       while_body_strict_spec g st d u h' = (g, r) ∧
       ∀ st', r = Ret st' → weak_inv g st'.
Proof.
  intros Hw Hpop. destruct (pop_weak g st d u h' Hw Hpop) as (Hw' & du & Hdu & Hle).
  unfold while_body, while_body_strict_spec. rewrite Hdu.
  pose proof (stale_tests_agree d du Hle) as Hagree.
  destruct (decide (d ≠ du)) as [Hne|Heq].
  - apply Hagree in Hne. rewrite Hne. eexists. split_and!; [done..|].
    by intros st' [= <-].
  - destruct (num_ltb du d) eqn:Hlt; [destruct Heq; by apply Hagree|].
    assert (u ∈ dom g) as [l Hl]%elem_of_dom.
    { rewrite <- (weak_dom _ _ Hw). apply elem_of_dom. eauto. }
    rewrite (adj_getitem_known g u l Hl). eexists. split_and!; [done..|].
    intros st' Hst'. by eapply relax_weak.
Qed.

Lemma while_heap_weak g : ∀ fuel st, weak_inv g st →
  (while_heap vltb fuel g st).1 = g ∧
  while_heap_strict_spec vltb fuel g st = while_heap vltb fuel g st.
Proof.
  induction fuel as [|n IH]; intros st Hw; simpl; [done|].
  destruct (heappop vltb (heap st)) as [[[d u] h']|] eqn:Hpop; [|done].
  destruct (while_body_weak g st d u h' Hw Hpop) as (r & -> & -> & Hr).
  destruct r as [st'| |]; [|done..]. apply IH. by apply Hr.
Qed.

Lemma loop_state_weak g s g1 st :
  loop_state vltb g s g1 st → g1 = g ∧ weak_inv g st.
Proof.
  induction 1 as [l Hl | g1 st d u h' g2 st' _ [-> Hw] Hpop Hbody].
  - split; [done | by eapply weak_init].
  - destruct (while_body_weak g st d u h' Hw Hpop) as (r & Hr & _ & Hweak).
    rewrite Hr in Hbody. injection Hbody as <- ->. split; [done | by apply Hweak].
Qed.

(** ** Graphs built by a sequence of insertions *)

Lemma add_edges_spec (ops : list (V * V * Z * bool)) : ∀ g,
  Forall (λ op, 0 ≤ op.1.2) ops →
  ∃ g', add_edges g ops = (g', Ret ()) ∧
    (wf_graph g → wf_graph g') ∧
    (∀ a b c, edge g' a b c ↔ edge g a b c ∨ ∃ op, op ∈ ops ∧ op_edge op a b c) ∧
    (∀ x, x ∈ dom g' ↔ x ∈ dom g ∨ ∃ op, op ∈ ops ∧ (x = op.1.1.1 ∨ x = op.1.1.2)).
Proof.
  clear vltb.
  induction ops as [|op ops IH]; intros g Hnn.
  - exists g. split_and!; [done | done | |].
    + intros a b c. split; [by left|]. intros [?|(? & ?%elem_of_nil & _)]; done.
    + intros x. split; [by left|]. intros [?|(? & ?%elem_of_nil & _)]; done.
  - apply Forall_cons in Hnn as [Hop Hnn]. simpl.
    rewrite add_edge_ok by done.
    destruct (IH (add_edge_graph g op.1.1.1 op.1.1.2 op.1.2 op.2) Hnn)
      as (g' & -> & Hwf & Hedge & Hdom).
    exists g'. split_and!; [done | | |].
    + intros Hg. apply Hwf. by apply add_edge_graph_wf.
    + intros a b c. rewrite Hedge, add_edge_graph_edge. split.
      * intros [[?|Hnew]|(op' & ? & ?)].
        -- by left.
        -- right. exists op. split; [left|]. unfold op_edge. tauto.
        -- right. exists op'. split; [by right | done].
      * intros [?|(op' & [->|?]%elem_of_cons & Hoe)].
        -- left. by left.
        -- left. right. unfold op_edge in Hoe. tauto.
        -- right. by exists op'.
    + intros x. rewrite Hdom, add_edge_graph_dom. split.
      * intros [[?|Hx]%elem_of_union|(op' & ? & ?)].
        -- by left.
        -- right. exists op. split; [left|]. set_solver.
        -- right. exists op'. split; [by right | done].
      * intros [?|(op' & [->|?]%elem_of_cons & Hx)].
        -- left. set_solver.
        -- left. set_solver.
        -- right. by exists op'.
Qed.

Lemma is_path_ext g1 g2 (pth : list (V * V * Z)) :
  (∀ a b c, edge g1 a b c ↔ edge g2 a b c) →
  ∀ a b, is_path g1 a b pth ↔ is_path g2 a b pth.
Proof.
  intros Hext. induction pth as [|e pth IH]; simpl; intros a b; [done|].
  by rewrite Hext, IH.
Qed.

(** ** reconstruct_path on the map [dijkstra] returned *)

Lemma reconstruct_unknown (p : gmap V (option V)) t n :
  p !! t = None → reconstruct_path n p t = Ret [].
Proof. unfold reconstruct_path. by intros ->. Qed.

Lemma reconstruct_isolated (p : gmap V (option V)) t :
  p !! t = Some None →
  (∀ n, (2 ≤ n)%nat → reconstruct_path n p t = Ret [t]) ∧
  (∀ n path, reconstruct_path n p t = Ret path → path = [t]).
Proof.
  intros Hp. unfold reconstruct_path. rewrite Hp. split.
  - intros [|[|n]] Hn; [lia..|]. simpl. by rewrite Hp.
  - intros [|[|n]] path; simpl; rewrite ?Hp; [done..|]. by intros [= <-].
Qed.

(** ** The properties of the engine *)

(** C3: [add_edge] with a negative weight raises [ValueError] and leaves
    the adjacency mapping as it was, directed or undirected. *)
Theorem add_edge_negative_weight g u v w undirected :
  w < 0 → add_edge g u v w undirected = (g, Raise ValueError).
Proof.
  intros Hw. unfold add_edge. by destruct (Z.ltb_spec w 0); [|lia].
Qed.

(** C4: from a source that is not a key of the graph [dijkstra] raises
    [KeyError] whatever the fuel, returning no map and leaving the graph as
    it was; from a known source of a well-formed graph it raises nothing. *)
Theorem dijkstra_unknown_source g s :
  (s ∉ dom g → ∀ fuel, dijkstra vltb fuel g s = (g, Raise KeyError)) ∧
  (wf_graph g → s ∈ dom g →
     ∀ fuel e, (dijkstra vltb fuel g s).2 ≠ Raise e).
Proof.
  split.
  - intros Hs%not_elem_of_dom fuel. rewrite dijkstra_unfold. by rewrite Hs.
  - intros Hwf [l Hl]%elem_of_dom fuel e. rewrite dijkstra_unfold. rewrite Hl.
    destruct (while_heap_no_raise g s Hwf fuel [] 0 (init_locals g s))
      as (r & -> & Hr).
    + by eapply inv_init.
    + apply all_relaxed_init.
    + apply Hr.
Qed.

(** C5: on the predecessor map of a run, [reconstruct_path] returns the
    empty list for a target that is not a key, and exactly [[target]] for a
    known target that no path reaches; it never returns more than one
    vertex for an unreachable target. *)
Theorem reconstruct_path_unreachable g s fuel :
  wf_graph g → s ∈ dom g → (dijkstra_fuel g ≤ fuel)%nat →
  ∃ d p, dijkstra vltb fuel g s = (g, Ret (d, p)) ∧
    (∀ t n, t ∉ dom g →
       p !! t = None ∧ reconstruct_path n p t = Ret []) ∧
    (∀ t, t ∈ dom g → ¬ reachable g s t →
       t ≠ s ∧ d !! t = Some PInf ∧ p !! t = Some None ∧
       (∀ n, (2 ≤ n)%nat → reconstruct_path n p t = Ret [t]) ∧
       (∀ n path, reconstruct_path n p t = Ret path → path = [t])) ∧
    (∀ t n path, ¬ reachable g s t →
       reconstruct_path n p t = Ret path → (length path ≤ 1)%nat).
Proof.
  intros Hwf Hs Hfuel.
  destruct (dijkstra_inv g s fuel Hwf Hs Hfuel)
    as (d & p & done & m & Hrun & Hinv & Hrel).
  pose proof (inv_dom_prev _ _ _ _ _ Hinv) as Hdp. simpl in Hdp.
  assert (∀ t, t ∉ dom g → p !! t = None) as Hout.
  { intros t Ht. apply not_elem_of_dom. by rewrite Hdp. }
  assert (∀ t, t ∈ dom g → ¬ reachable g s t →
            d !! t = Some PInf ∧ p !! t = Some None) as Hunreach.
  { intros t Ht Hnr.
    assert (d !! t = Some PInf) as Hinf by (by eapply final_dist_inf).
    split; [done|]. eapply final_prev_none; [done..|].
    intros (z & Hz & _)%(inv_done _ _ _ _ _ Hinv). simpl in Hz. congruence. }
  exists d, p. split_and!; [done | | |].
  - intros t n Ht. split; [by apply Hout|].
    apply reconstruct_unknown. by apply Hout.
  - intros t Ht Hnr. destruct (Hunreach t Ht Hnr) as [Hinf Hp].
    split_and!; [|done|done|by apply reconstruct_isolated..].
    intros ->. apply Hnr. by exists [].
  - intros t n path Hnr Hrun'. destruct (decide (t ∈ dom g)) as [Ht|Ht].
    + destruct (Hunreach t Ht Hnr) as [_ Hp].
      apply (reconstruct_isolated p t Hp) in Hrun' as ->. simpl. lia.
    + rewrite (reconstruct_unknown p t n (Hout t Ht)) in Hrun'.
      injection Hrun' as <-. simpl. lia.
Qed.

(** C7: whenever the loop pops an entry [(d, u)], the recorded distance of
    [u] exists and is at most [d], so the source's test [d != dist[u]] holds
    exactly when [d] is strictly greater; the loop written with the strict
    test computes the same as the source's loop, on every graph and for
    every fuel. *)
Theorem stale_test_refines_strict g s :
  (∀ g1 st d u h',
     loop_state vltb g s g1 st →
     heappop vltb (heap st) = Some ((d, u), h') →
     ∃ du, dist st !! u = Some du ∧ num_le du d ∧ (d ≠ du ↔ num_lt du d)) ∧
  (∀ fuel, dijkstra_strict_spec vltb fuel g s = dijkstra vltb fuel g s).
Proof.
  split.
  - intros g1 st d u h' [-> Hw]%loop_state_weak Hpop.
    destruct (pop_weak g st d u h' Hw Hpop) as (_ & du & Hdu & Hle).
    exists du. split_and!; [done..|]. by apply stale_tests_agree.
  - intros fuel. rewrite dijkstra_strict_spec_unfold, dijkstra_unfold.
    destruct (g !! s) as [l|] eqn:Hs; [|done].
    apply while_heap_weak. by eapply weak_init.
Qed.

(** C8: [dijkstra] leaves the adjacency mapping as it found it, on every
    graph, for every source and however long it runs. *)
Theorem dijkstra_frame g s fuel : (dijkstra vltb fuel g s).1 = g.
Proof.
  rewrite dijkstra_unfold. destruct (g !! s) as [l|] eqn:Hs; [|done].
  apply while_heap_weak. by eapply weak_init.
Qed.

(** C9: two sequences of insertions that are permutations of each other,
    none with a negative weight, build graphs on which [dijkstra] returns
    the same distance map from any known source. *)
Theorem dijkstra_insertion_order (ops1 ops2 : list (V * V * Z * bool)) s
    fuel1 fuel2 :
  ops1 ≡ₚ ops2 → Forall (λ op, 0 ≤ op.1.2) ops1 →
  s ∈ dom (add_edges empty_graph ops1).1 →
  (dijkstra_fuel (add_edges empty_graph ops1).1 ≤ fuel1)%nat →
  (dijkstra_fuel (add_edges empty_graph ops2).1 ≤ fuel2)%nat →
  ∃ g1 g2 d p1 p2,
    add_edges empty_graph ops1 = (g1, Ret ()) ∧
    add_edges empty_graph ops2 = (g2, Ret ()) ∧
    dom g1 = dom g2 ∧
    dijkstra vltb fuel1 g1 s = (g1, Ret (d, p1)) ∧
    dijkstra vltb fuel2 g2 s = (g2, Ret (d, p2)).
Proof.
  intros Hperm Hnn1.
  assert (Forall (λ op : V * V * Z * bool, 0 ≤ op.1.2) ops2) as Hnn2
    by (by rewrite <- Hperm).
  destruct (add_edges_spec ops1 empty_graph Hnn1)
    as (g1 & Hb1 & Hwf1 & He1 & Hd1).
  destruct (add_edges_spec ops2 empty_graph Hnn2)
    as (g2 & Hb2 & Hwf2 & He2 & Hd2).
  rewrite Hb1, Hb2. simpl. intros Hs Hf1 Hf2.
  specialize (Hwf1 wf_empty). specialize (Hwf2 wf_empty).
  assert (∀ a b c, edge g1 a b c ↔ edge g2 a b c) as Hedge.
  { intros a b c. rewrite He1, He2.
    by setoid_rewrite Hperm. }
  assert (dom g1 = dom g2) as Hdom.
  { apply set_eq. intros x. rewrite Hd1, Hd2. by setoid_rewrite Hperm. }
  destruct (dijkstra_inv g1 s fuel1 Hwf1 Hs Hf1)
    as (d1 & p1 & done1 & m1 & Hrun1 & Hinv1 & Hrel1).
  assert (s ∈ dom g2) as Hs2 by (by rewrite <- Hdom).
  destruct (dijkstra_inv g2 s fuel2 Hwf2 Hs2 Hf2)
    as (d2 & p2 & done2 & m2 & Hrun2 & Hinv2 & Hrel2).
  exists g1, g2, d1, p1, p2. split_and!; [done..|]. rewrite Hrun2.
  do 3 f_equal. apply map_eq. intros v.
  pose proof (inv_dom_dist _ _ _ _ _ Hinv1) as Hdd1.
  pose proof (inv_dom_dist _ _ _ _ _ Hinv2) as Hdd2. simpl in Hdd1, Hdd2.
  destruct (d1 !! v) as [[z|]|] eqn:Hv.
  - apply (final_dist_min g1 s done1 m1 d1 p1 v z Hinv1 Hrel1) in Hv
      as [(pth & Hp & Hw) Hmin].
    apply (final_dist_min g2 s done2 m2 d2 p2 v z Hinv2 Hrel2). split.
    + exists pth. split; [|done]. by apply (is_path_ext g1 g2 pth Hedge).
    + intros q Hq. apply Hmin. by apply (is_path_ext g1 g2 q Hedge).
  - assert (v ∈ dom g1) as Hvd.
    { rewrite <- Hdd1. apply elem_of_dom. eauto. }
    apply (final_dist_inf g1 s done1 m1 d1 p1 v Hinv1 Hrel1 Hvd) in Hv.
    apply (final_dist_inf g2 s done2 m2 d2 p2 v Hinv2 Hrel2).
    + by rewrite <- Hdom.
    + intros [pth Hp]. apply Hv. exists pth.
      by apply (is_path_ext g1 g2 pth Hedge).
  - apply not_elem_of_dom. rewrite Hdd2, <- Hdom, <- Hdd1.
    by apply not_elem_of_dom.
Qed.

(** C10: in the maps of a run the source keeps distance 0 and predecessor
    [None], so [reconstruct_path] applied to the source returns [[source]],
    whose first element is the source. *)
Theorem source_predecessor_none g s fuel :
  wf_graph g → s ∈ dom g → (dijkstra_fuel g ≤ fuel)%nat →
  ∃ d p, dijkstra vltb fuel g s = (g, Ret (d, p)) ∧
    d !! s = Some (Fin 0) ∧ p !! s = Some None ∧
    ∀ n, (2 ≤ n)%nat →
      ∃ path, reconstruct_path n p s = Ret path ∧
              path = [s] ∧ head path = Some s.
Proof.
  intros Hwf Hs Hfuel.
  destruct (dijkstra_inv g s fuel Hwf Hs Hfuel)
    as (d & p & done & m & Hrun & Hinv & Hrel).
  pose proof (inv_src_dist _ _ _ _ _ Hinv) as Hd.
  pose proof (inv_src_prev _ _ _ _ _ Hinv) as Hp. simpl in Hd, Hp.
  exists d, p. split_and!; [done..|].
  intros n Hn. exists [s]. split_and!; [|done..].
  by apply reconstruct_isolated.
Qed.

(** ** Further properties of add_edge *)

(** X2: whatever its arguments, [add_edge] leaves a well-formed graph well
    formed: every neighbour is a key and no stored weight is negative. *)
Theorem add_edge_keeps_wf g u v w undirected :
  wf_graph g → wf_graph (add_edge g u v w undirected).1.
Proof.
  clear vltb. intros Hwf. destruct (Z.ltb_spec w 0) as [Hneg|Hpos].
  - unfold add_edge. by destruct (Z.ltb_spec w 0); [|lia].
  - rewrite add_edge_ok by done. by apply add_edge_graph_wf.
Qed.

Lemma add_edge_raises g u v w undirected :
  w < 0 → add_edge g u v w undirected = (g, Raise ValueError).
Proof. intros Hw. unfold add_edge. by destruct (Z.ltb_spec w 0); [|lia]. Qed.


(** ** Further properties of the maps dijkstra returns *)

Lemma is_path_mono g g' (pth : list (V * V * Z)) :
  (∀ a b c, edge g a b c → edge g' a b c) →
  ∀ a b, is_path g a b pth → is_path g' a b pth.
Proof.
  clear vltb. intros Hsub. induction pth as [|e pth IH]; simpl; intros a b;
    [done|].
  intros (? & ? & ?). split_and!; [done | by apply Hsub | by apply IH].
Qed.

(** X13: inserting one more edge never makes a distance worse: every
    vertex that had a distance before the insertion has one afterwards
    that is at most the old one. *)
Theorem insertion_never_lengthens g s u v w undirected fuel fuel' :
  wf_graph g → s ∈ dom g → 0 ≤ w →
  (dijkstra_fuel g ≤ fuel)%nat →
  (dijkstra_fuel (add_edge g u v w undirected).1 ≤ fuel')%nat →
  ∃ g' d p d' p',
    add_edge g u v w undirected = (g', Ret ()) ∧
    dijkstra vltb fuel g s = (g, Ret (d, p)) ∧
    dijkstra vltb fuel' g' s = (g', Ret (d', p')) ∧
    ∀ x dx, d !! x = Some dx → ∃ dx', d' !! x = Some dx' ∧ num_le dx' dx.
Proof.
  intros Hwf Hs Hw Hfuel. rewrite add_edge_ok by done. simpl. intros Hfuel'.
  set (g' := add_edge_graph g u v w undirected) in *.
  assert (wf_graph g') as Hwf' by (by apply add_edge_graph_wf).
  assert (dom g ⊆ dom g') as Hsub.
  { unfold g'. rewrite add_edge_graph_dom. set_solver. }
  assert (∀ a b c, edge g a b c → edge g' a b c) as Hedge.
  { intros a b c He. unfold g'. apply add_edge_graph_edge. by left. }
  destruct (dijkstra_inv g s fuel Hwf Hs Hfuel)
    as (d & p & done & m & Hrun & Hinv & Hrel).
  destruct (dijkstra_inv g' s fuel' Hwf' (Hsub s Hs) Hfuel')
    as (d' & p' & done' & m' & Hrun' & Hinv' & Hrel').
  exists g', d, p, d', p'. split_and!; [done..|].
  intros x dx Hx. destruct dx as [z|].
  - destruct (inv_sound _ _ _ _ _ Hinv x z Hx) as (pth & Hp & <-).
    apply (is_path_mono g g' pth Hedge) in Hp.
    destruct (final_lower_bound g' s done' m' d' p' pth Hinv' Hrel' s x 0 Hp
                (inv_src_dist _ _ _ _ _ Hinv')) as (z' & Hz' & Hle).
    exists (Fin z'). split; [done|]. apply num_le_fin. lia.
  - assert (x ∈ dom g') as Hx'.
    { apply Hsub. rewrite <- (inv_dom_dist _ _ _ _ _ Hinv).
      apply elem_of_dom. eauto. }
    rewrite <- (inv_dom_dist _ _ _ _ _ Hinv') in Hx'.
    apply elem_of_dom in Hx' as [dx' Hdx']. exists dx'.
    split; [done | apply num_le_inf].
Qed.

(** ** reconstruct_path on an arbitrary predecessor map *)

Lemma linked_snoc (prev : gmap V (option V)) (l : list V) u v :
  linked prev l → last l = Some u → prev !! v = Some (Some u) →
  linked prev (l ++ [v]).
Proof.
  clear vltb. induction l as [|a l IH]; [done|]. destruct l as [|b l].
  - intros _ [= ->] Hv. simpl. done.
  - intros [Hab Hrest] Hlast Hv. split; [done|].
    apply IH; [done | | done]. by rewrite last_cons_cons in Hlast.
Qed.

Lemma walk_back_links (prev : gmap V (option V)) :
  ∀ n v acc out, walk_back n prev (Some v) acc = Ret out →
    ∃ r root, out = acc ++ r ∧ head r = Some v ∧
      last r = Some root ∧ prev !! root = Some None ∧
      linked prev (reverse r).
Proof.
  clear vltb. induction n as [|n IH]; intros v acc out; simpl; [done|].
  destruct (prev !! v) as [[u|]|] eqn:Hv; [| |done].
  - intros (r & root & -> & Hhd & Hlast & Hroot & Hlinked)%IH.
    exists (v :: r), root. rewrite <- app_assoc. split_and!; [done..| | |].
    + destruct r; [done|]. done.
    + done.
    + rewrite reverse_cons. eapply linked_snoc; [done | | done].
      by rewrite last_reverse.
  - destruct n as [|n]; simpl; [done|]. intros [= <-].
    by exists [v], v.
Qed.

(** X8: on any predecessor map, a list [reconstruct_path] returns is empty
    when the target is not a key; otherwise it ends with the target, starts
    with a vertex whose predecessor is [None], and each of its vertices is
    the recorded predecessor of the next. *)
Theorem reconstruct_path_follows_links (prev : gmap V (option V)) t n path :
  reconstruct_path n prev t = Ret path →
  (prev !! t = None ∧ path = []) ∨
  (last path = Some t ∧
   (∃ root, head path = Some root ∧ prev !! root = Some None) ∧
   linked prev path).
Proof.
  clear vltb. unfold reconstruct_path.
  destruct (prev !! t) as [o|] eqn:Ht; [|intros [= <-]; by left].
  destruct (walk_back n prev (Some t) []) as [out| |] eqn:Hrun; [|done..].
  intros [= <-]. right.
  apply walk_back_links in Hrun as (r & root & -> & Hhd & Hlast & Hroot & Hl).
  simpl. rewrite last_reverse, head_reverse. split_and!; [done| |done].
  by exists root.
Qed.

Lemma walk_back_dangling (prev : gmap V (option V)) t v u :
  rtc (pred_link prev) t v → prev !! v = Some (Some u) → prev !! u = None →
  ∃ n0, ∀ n acc, (n0 ≤ n)%nat →
    walk_back n prev (Some t) acc = Raise KeyError.
Proof.
  clear vltb. intros Hrtc Hv Hu. induction Hrtc as [x | x y z Hxy _ IH].
  - exists 2%nat. intros [|[|n]] acc Hn; [lia..|]. simpl. by rewrite Hv, Hu.
  - destruct (IH Hv) as [n0 Hn0]. exists (S n0).
    intros [|n] acc Hn; [lia|]. simpl. rewrite Hxy. apply Hn0. lia.
Qed.

(** X9: when the links from the target lead to a vertex whose recorded
    predecessor is not itself a key of the map, [reconstruct_path] raises
    [KeyError] (it does not return the empty list). *)
Theorem reconstruct_path_dangling (prev : gmap V (option V)) t v u :
  rtc (pred_link prev) t v → prev !! v = Some (Some u) → prev !! u = None →
  ∃ n0, ∀ n, (n0 ≤ n)%nat → reconstruct_path n prev t = Raise KeyError.
Proof.
  clear vltb. intros Hrtc Hv Hu.
  destruct (walk_back_dangling prev t v u Hrtc Hv Hu) as [n0 Hn0].
  exists n0. intros n Hn. unfold reconstruct_path.
  assert (is_Some (prev !! t)) as [o ->].
  { inversion Hrtc as [|? y ? Hty]; subst; eauto. }
  by rewrite Hn0.
Qed.

Lemma pred_link_cycle_step (prev : gmap V (option V)) v :
  tc (pred_link prev) v v →
  ∃ u, prev !! v = Some (Some u) ∧ tc (pred_link prev) u u.
Proof.
  clear vltb. intros Htc. inversion Htc as [? ? Hvv | ? u ? Hvu Huv]; subst.
  - exists v. done.
  - exists u. split; [done|]. by eapply tc_r.
Qed.

Lemma walk_back_cycle (prev : gmap V (option V)) :
  ∀ n v acc, tc (pred_link prev) v v →
    walk_back n prev (Some v) acc = OutOfFuel.
Proof.
  clear vltb. induction n as [|n IH]; intros v acc Htc; simpl; [done|].
  destruct (pred_link_cycle_step prev v Htc) as (u & -> & Hu). by apply IH.
Qed.

(** X10: when the links from the target lead back to the target,
    [reconstruct_path] never returns: the loop is still running whatever
    the number of iterations allowed. *)
Theorem reconstruct_path_cycle (prev : gmap V (option V)) t :
  tc (pred_link prev) t t → ∀ n, reconstruct_path n prev t = OutOfFuel.
Proof.
  clear vltb. intros Htc n. unfold reconstruct_path.
  destruct (pred_link_cycle_step prev t Htc) as (u & Hu & _). rewrite Hu.
  by rewrite walk_back_cycle.
Qed.

Lemma final_dist_unique g s done1 m1 d1 p1 done2 m2 d2 p2 :
  inv g s done1 m1 (Locals d1 p1 []) → all_relaxed g done1 (Locals d1 p1 []) →
  inv g s done2 m2 (Locals d2 p2 []) → all_relaxed g done2 (Locals d2 p2 []) →
  d1 = d2.
Proof.
  clear vltb. intros Hinv1 Hrel1 Hinv2 Hrel2. apply map_eq. intros v.
  pose proof (inv_dom_dist _ _ _ _ _ Hinv1) as Hdd1.
  pose proof (inv_dom_dist _ _ _ _ _ Hinv2) as Hdd2. simpl in Hdd1, Hdd2.
  destruct (d1 !! v) as [[z|]|] eqn:Hv; symmetry.
  - apply (final_dist_min g s done2 m2 d2 p2 v z Hinv2 Hrel2).
    by apply (final_dist_min g s done1 m1 d1 p1 v z Hinv1 Hrel1).
  - assert (v ∈ dom g) as Hvd.
    { rewrite <- Hdd1. apply elem_of_dom. eauto. }
    apply (final_dist_inf g s done2 m2 d2 p2 v Hinv2 Hrel2 Hvd).
    by apply (final_dist_inf g s done1 m1 d1 p1 v Hinv1 Hrel1 Hvd).
  - apply not_elem_of_dom. rewrite Hdd2, <- Hdd1. by apply not_elem_of_dom.
Qed.

End Proofs.

(** ** The demo graph *)

Lemma demo_graph_built undirected :
  add_edges empty_graph (map (λ e, (e, undirected)) demo_edges)
  = (demo_graph undirected, Ret ()) ∧ wf_graph (demo_graph undirected).
Proof.
  destruct (add_edges_spec (map (λ e, (e, undirected)) demo_edges) empty_graph)
    as (g & Hg & Hwf & _).
  { unfold demo_edges. simpl. repeat constructor; simpl; lia. }
  unfold demo_graph. rewrite Hg. split; [done|]. apply Hwf, wf_empty.
Qed.

Lemma demo_graph_wf undirected : wf_graph (demo_graph undirected).
Proof. apply demo_graph_built. Qed.

Lemma demo_graph_source : "A"%string ∈ dom (demo_graph true).
Proof. apply elem_of_dom. vm_compute. eauto. Qed.

Lemma demo_graph_fuel : dijkstra_fuel (demo_graph true) = 18%nat.
Proof. vm_compute. reflexivity. Qed.

Lemma dijkstra_fuel_mono {V : Type} `{Countable V} (vltb : V → V → bool)
    n n' (g g' : gmap V (list (V * Z))) s r :
  dijkstra vltb n g s = (g', Ret r) → (n ≤ n')%nat →
  dijkstra vltb n' g s = (g', Ret r).
Proof.
  rewrite !dijkstra_unfold. destruct (g !! s); [|done].
  apply while_heap_fuel_mono.
Qed.

Lemma demo_run :
  dijkstra String.ltb 18 (demo_graph true) "A"
  = (demo_graph true, Ret (demo_dist, demo_prev)).
Proof. vm_compute. reflexivity. Qed.

Lemma ret_pair_inj {G A B : Type} (g g' : G) (a a' : A) (b b' : B) :
  (g, Ret (a, b)) = (g', Ret (a', b')) → a = a' ∧ b = b'.
Proof. by intros [= _ -> ->]. Qed.

Lemma demo_edge (a b : string) (w : Z) l :
  demo_graph true !! a = Some l → (b, w) ∈ l → edge (demo_graph true) a b w.
Proof. intros Hl Hin. exact (ex_intro _ l (conj Hl Hin)). Qed.

(** C2, as the code behaves: on the undirected demo graph the distances
    from A are A=0, B=3, C=2, D=8 and E=9, and [reconstruct_path] to E
    yields A, C, B, E, a path of total weight 9. *)
Theorem demo_shortest_paths fuel :
  (dijkstra_fuel (demo_graph true) ≤ fuel)%nat →
  ∃ d p,
    dijkstra String.ltb fuel (demo_graph true) "A" = (demo_graph true, Ret (d, p)) ∧
    d !! "A"%string = Some (Fin 0) ∧ d !! "B"%string = Some (Fin 3) ∧
    d !! "C"%string = Some (Fin 2) ∧ d !! "D"%string = Some (Fin 8) ∧
    d !! "E"%string = Some (Fin 9) ∧
    (∀ n, (5 ≤ n)%nat →
       reconstruct_path n p "E" = Ret ["A"; "C"; "B"; "E"]%string) ∧
    vertex_path (demo_graph true) ["A"; "C"; "B"; "E"]%string 9.
Proof.
  intros Hfuel. rewrite demo_graph_fuel in Hfuel.
  exists demo_dist, demo_prev.
  split; [exact (dijkstra_fuel_mono String.ltb 18 fuel _ _ _ _ demo_run Hfuel)|].
  do 5 (split; [vm_compute; reflexivity|]). split.
  - intros n Hn. replace n with (5 + (n - 5))%nat by lia.
    vm_compute. reflexivity.
  - cbn [vertex_path]. exists 2. split.
    { eapply demo_edge; [vm_compute; reflexivity | repeat constructor]. }
    exists 1. split.
    { eapply demo_edge; [vm_compute; reflexivity | repeat constructor]. }
    exists 6. split.
    { eapply demo_edge; [vm_compute; reflexivity | repeat constructor]. }
    reflexivity.
Qed.

Lemma demo_shortest_paths_witness :
  (dijkstra_fuel (demo_graph true) ≤ 18)%nat ∧
  ∃ d p,
    dijkstra String.ltb 18 (demo_graph true) "A" = (demo_graph true, Ret (d, p)) ∧
    d !! "A"%string = Some (Fin 0) ∧ d !! "B"%string = Some (Fin 3) ∧
    d !! "C"%string = Some (Fin 2) ∧ d !! "D"%string = Some (Fin 8) ∧
    d !! "E"%string = Some (Fin 9) ∧
    (∀ n, (5 ≤ n)%nat →
       reconstruct_path n p "E" = Ret ["A"; "C"; "B"; "E"]%string) ∧
    vertex_path (demo_graph true) ["A"; "C"; "B"; "E"]%string 9.
Proof.
  assert (dijkstra_fuel (demo_graph true) ≤ 18)%nat as Hfuel
    by (vm_compute; lia).
  split; [exact Hfuel | exact (demo_shortest_paths 18 Hfuel)].
Defined.

(** C2, as stated, fails: no run on the undirected demo graph from A
    returns the distances A=0, B=3, C=2, D=8, E=10 with a reconstructed
    path to E of total weight 10 (the distance of E is 9). *)
Lemma demo_distance_E_not_10 :
  ¬ ∃ fuel d p,
    dijkstra String.ltb fuel (demo_graph true) "A" = (demo_graph true, Ret (d, p)) ∧
    d !! "A"%string = Some (Fin 0) ∧ d !! "B"%string = Some (Fin 3) ∧
    d !! "C"%string = Some (Fin 2) ∧ d !! "D"%string = Some (Fin 8) ∧
    d !! "E"%string = Some (Fin 10) ∧
    ∃ n path, reconstruct_path n p "E" = Ret path ∧
              vertex_path (demo_graph true) path 10.
Proof.
  intros (fuel & d & p & Hrun & _ & _ & _ & _ & HE & _).
  pose proof demo_run as Hrun0.
  apply (dijkstra_fuel_mono String.ltb fuel (fuel + 18)) in Hrun; [|lia].
  apply (dijkstra_fuel_mono String.ltb 18 (fuel + 18)) in Hrun0; [|lia].
  rewrite Hrun in Hrun0. apply ret_pair_inj in Hrun0 as [Hd _].
  rewrite Hd in HE. vm_compute in HE. discriminate HE.
Qed.

(** ** The theorems at the demo graph *)

Lemma add_edge_negative_weight_witness :
  -1 < 0 ∧
  add_edge (demo_graph true) "A"%string "B"%string (-1) true
  = (demo_graph true, Raise ValueError).
Proof.
  assert (-1 < 0) as Hw by lia.
  split; [exact Hw|].
  exact (add_edge_negative_weight (demo_graph true) "A"%string "B"%string (-1) true Hw).
Defined.

Lemma demo_graph_no_Z : "Z"%string ∉ dom (demo_graph true).
Proof. apply not_elem_of_dom. vm_compute. reflexivity. Qed.

Lemma dijkstra_unknown_source_witness :
  (("Z"%string ∉ dom (demo_graph true)) ∧
   ∀ fuel, dijkstra String.ltb fuel (demo_graph true) "Z"
           = (demo_graph true, Raise KeyError)) ∧
  (wf_graph (demo_graph true) ∧ "A"%string ∈ dom (demo_graph true) ∧
   ∀ fuel e, (dijkstra String.ltb fuel (demo_graph true) "A").2 ≠ Raise e).
Proof.
  split.
  - split; [exact demo_graph_no_Z|].
    exact (proj1 (dijkstra_unknown_source String.ltb (demo_graph true) "Z")
             demo_graph_no_Z).
  - split_and!; [exact (demo_graph_wf true) | exact demo_graph_source |].
    exact (proj2 (dijkstra_unknown_source String.ltb (demo_graph true) "A")
             (demo_graph_wf true) demo_graph_source).
Defined.

Lemma reconstruct_path_unreachable_witness :
  wf_graph (demo_graph false) ∧ "E"%string ∈ dom (demo_graph false) ∧
  (dijkstra_fuel (demo_graph false) ≤ 10)%nat ∧
  ∃ d p, dijkstra String.ltb 10 (demo_graph false) "E" = (demo_graph false, Ret (d, p)) ∧
    (∀ t n, t ∉ dom (demo_graph false) →
       p !! t = None ∧ reconstruct_path n p t = Ret []) ∧
    (∀ t, t ∈ dom (demo_graph false) → ¬ reachable (demo_graph false) "E" t →
       t ≠ "E"%string ∧ d !! t = Some PInf ∧ p !! t = Some None ∧
       (∀ n, (2 ≤ n)%nat → reconstruct_path n p t = Ret [t]) ∧
       (∀ n path, reconstruct_path n p t = Ret path → path = [t])) ∧
    (∀ t n path, ¬ reachable (demo_graph false) "E" t →
       reconstruct_path n p t = Ret path → (length path ≤ 1)%nat).
Proof.
  assert ("E"%string ∈ dom (demo_graph false)) as Hs
    by (apply elem_of_dom; vm_compute; eauto).
  assert (dijkstra_fuel (demo_graph false) ≤ 10)%nat as Hfuel
    by (vm_compute; lia).
  split_and!; [exact (demo_graph_wf false) | exact Hs | exact Hfuel |].
  exact (reconstruct_path_unreachable String.ltb (demo_graph false) "E" 10
           (demo_graph_wf false) Hs Hfuel).
Defined.

Lemma stale_test_refines_strict_witness :
  loop_state String.ltb (demo_graph true) "A" (demo_graph true)
    (init_locals (demo_graph true) "A") ∧
  heappop String.ltb (heap (init_locals (demo_graph true) "A"))
  = Some ((Fin 0, "A"%string), []) ∧
  ∃ du, dist (init_locals (demo_graph true) "A") !! "A"%string = Some du ∧
        num_le du (Fin 0) ∧ (Fin 0 ≠ du ↔ num_lt du (Fin 0)).
Proof.
  assert (loop_state String.ltb (demo_graph true) "A" (demo_graph true)
            (init_locals (demo_graph true) "A")) as Hst.
  { eapply loop_enter. vm_compute. reflexivity. }
  assert (heappop String.ltb (heap (init_locals (demo_graph true) "A"))
          = Some ((Fin 0, "A"%string), [])) as Hpop
    by (vm_compute; reflexivity).
  split_and!; [exact Hst | exact Hpop |].
  exact (proj1 (stale_test_refines_strict String.ltb (demo_graph true) "A")
           _ _ _ _ _ Hst Hpop).
Defined.

Lemma dijkstra_insertion_order_witness :
  [("A", "B", 4, true); ("B", "C", 1, false)]%string
    ≡ₚ [("B", "C", 1, false); ("A", "B", 4, true)]%string ∧
  Forall (λ op : string * string * Z * bool, 0 ≤ op.1.2)
    [("A", "B", 4, true); ("B", "C", 1, false)]%string ∧
  ∃ g1 g2 d p1 p2,
    add_edges empty_graph [("A", "B", 4, true); ("B", "C", 1, false)]%string
    = (g1, Ret ()) ∧
    add_edges empty_graph [("B", "C", 1, false); ("A", "B", 4, true)]%string
    = (g2, Ret ()) ∧
    dom g1 = dom g2 ∧
    dijkstra String.ltb 5 g1 "A" = (g1, Ret (d, p1)) ∧
    dijkstra String.ltb 5 g2 "A" = (g2, Ret (d, p2)).
Proof.
  assert ([("A", "B", 4, true); ("B", "C", 1, false)]%string
            ≡ₚ [("B", "C", 1, false); ("A", "B", 4, true)]%string) as Hperm
    by apply perm_swap.
  assert (Forall (λ op : string * string * Z * bool, 0 ≤ op.1.2)
            [("A", "B", 4, true); ("B", "C", 1, false)]%string) as Hnn
    by (repeat constructor; simpl; lia).
  split_and!; [exact Hperm | exact Hnn |].
  refine (dijkstra_insertion_order String.ltb _ _ "A"%string 5%nat 5%nat
            Hperm Hnn _ _ _).
  - apply elem_of_dom. vm_compute. eauto.
  - vm_compute. lia.
  - vm_compute. lia.
Defined.

Lemma source_predecessor_none_witness :
  wf_graph (demo_graph true) ∧ "A"%string ∈ dom (demo_graph true) ∧
  (dijkstra_fuel (demo_graph true) ≤ 18)%nat ∧
  ∃ d p, dijkstra String.ltb 18 (demo_graph true) "A" = (demo_graph true, Ret (d, p)) ∧
    d !! "A"%string = Some (Fin 0) ∧ p !! "A"%string = Some None ∧
    ∀ n, (2 ≤ n)%nat →
      ∃ path, reconstruct_path n p "A" = Ret path ∧
              path = ["A"%string] ∧ head path = Some "A"%string.
Proof.
  assert (dijkstra_fuel (demo_graph true) ≤ 18)%nat as Hfuel
    by (vm_compute; lia).
  split_and!; [exact (demo_graph_wf true) | exact demo_graph_source | exact Hfuel |].
  exact (source_predecessor_none String.ltb (demo_graph true) "A" 18
           (demo_graph_wf true) demo_graph_source Hfuel).
Defined.

(** ** The order of equal heap entries *)

(** X12: the distance map does not depend on how Python orders two heap
    tuples with equal distances (the order of the vertices): any two such
    orders give the same distances. *)
Theorem distances_ignore_tie_break {V : Type} `{Countable V}
    (vltb1 vltb2 : V → V → bool) (g : gmap V (list (V * Z))) (s : V)
    fuel1 fuel2 :
  wf_graph g → s ∈ dom g →
  (dijkstra_fuel g ≤ fuel1)%nat → (dijkstra_fuel g ≤ fuel2)%nat →
  ∃ d p1 p2,
    dijkstra vltb1 fuel1 g s = (g, Ret (d, p1)) ∧
    dijkstra vltb2 fuel2 g s = (g, Ret (d, p2)).
Proof.
  intros Hwf Hs Hf1 Hf2.
  destruct (dijkstra_inv vltb1 g s fuel1 Hwf Hs Hf1)
    as (d1 & p1 & done1 & m1 & Hrun1 & Hinv1 & Hrel1).
  destruct (dijkstra_inv vltb2 g s fuel2 Hwf Hs Hf2)
    as (d2 & p2 & done2 & m2 & Hrun2 & Hinv2 & Hrel2).
  exists d1, p1, p2. split; [done|].
  by rewrite (final_dist_unique g s _ _ _ _ _ _ _ _ Hinv1 Hrel1 Hinv2 Hrel2).
Qed.

(** ** Reading the edges of a file *)

Section ReadEdgesProofs.
Variable to_float : string → option Z.

Lemma long_rows_short (row : list string) rows :
  (length row < 3)%nat → long_rows (row :: rows) = long_rows rows.
Proof. intros Hlen. unfold long_rows. rewrite filter_cons. by rewrite decide_False by lia. Qed.

Lemma long_rows_long (row : list string) rows :
  (3 ≤ length row)%nat → long_rows (row :: rows) = row :: long_rows rows.
Proof. intros Hlen. unfold long_rows. rewrite filter_cons. by rewrite decide_True. Qed.

Lemma read_rows_ok und (rows : list (list string)) :
  ∀ g (triples : list (string * string * Z)),
    Forall2 (λ row t, row_triple to_float row = Some t) (long_rows rows) triples →
    Forall (λ t, 0 ≤ t.2) triples →
    read_rows to_float g rows und
    = Ret (add_edges g (map (λ t, (t, und)) triples)).1.
Proof.
  induction rows as [|row rows IH]; intros g triples.
  - intros ->%Forall2_nil_inv_l _. done.
  - destruct row as [|u [|v [|ws rest]]];
      try (rewrite long_rows_short by (simpl; lia); apply IH).
    rewrite long_rows_long by (simpl; lia).
    intros (t & ts & Ht & Hts & ->)%Forall2_cons_inv_l
           [Hw Hnn]%Forall_cons.
    simpl. unfold row_triple in Ht. destruct (to_float ws) as [w|]; [|done].
    injection Ht as <-. simpl in *.
    rewrite !add_edge_ok by done. by apply IH.
Qed.

(** X14: when the third field of every row with at least three fields is
    a non-negative number, [read_edges_from_file] returns a well-formed
    graph whose edges are exactly those of these rows (and their mirror
    images when undirected), in file order; shorter rows and fields after
    the third contribute nothing. *)
Theorem read_edges_from_file_graph und (rows : list (list string))
    (triples : list (string * string * Z)) :
  Forall2 (λ row t, row_triple to_float row = Some t) (long_rows rows) triples →
  Forall (λ t, 0 ≤ t.2) triples →
  ∃ g, read_edges_from_file to_float rows und = Ret g ∧
    add_edges empty_graph (map (λ t, (t, und)) triples) = (g, Ret ()) ∧
    wf_graph g ∧
    ∀ a b c, edge g a b c ↔ ∃ t, t ∈ triples ∧ op_edge (t, und) a b c.
Proof.
  intros Hrows Hnn. unfold read_edges_from_file.
  rewrite (read_rows_ok und rows empty_graph triples Hrows Hnn).
  destruct (add_edges_spec (map (λ t, (t, und)) triples) empty_graph)
    as (g & Hg & Hwf & Hedge & _).
  { apply Forall_map. by eapply Forall_impl. }
  exists g. rewrite Hg. split_and!; [done | done | apply Hwf, wf_empty |].
  intros a b c. rewrite Hedge. split.
  - intros [(l & Hl & _)|(op & (t & -> & Ht)%list_elem_of_fmap & Hop)].
    + unfold empty_graph in Hl. by rewrite lookup_empty in Hl.
    + by exists t.
  - intros (t & Ht & Hop). right. exists (t, und). split; [|done].
    apply list_elem_of_fmap. by exists t.
Qed.

(** X15: one row with at least three fields whose third field is not a
    number or is negative makes [read_edges_from_file] raise [ValueError],
    wherever the row stands; no graph is returned. *)
Theorem read_edges_from_file_bad_row und (rows : list (list string)) :
  Exists (bad_row to_float) (long_rows rows) →
  read_edges_from_file to_float rows und = Raise ValueError.
Proof.
  unfold read_edges_from_file. generalize (empty_graph (V:=string)).
  induction rows as [|row rows IH]; intros g.
  - by intros ?%Exists_nil.
  - destruct row as [|u [|v [|ws rest]]];
      try (rewrite long_rows_short by (simpl; lia); apply IH).
    rewrite long_rows_long by (simpl; lia). rewrite Exists_cons. simpl.
    unfold bad_row at 1, row_triple.
    destruct (to_float ws) as [w|]; simpl; [|done].
    destruct (Z.ltb_spec w 0) as [Hneg|Hpos].
    + intros _. by rewrite add_edge_raises.
    + intros [?|Hbad]; [lia|]. rewrite add_edge_ok by done. by apply IH.
Qed.

End ReadEdgesProofs.

(** ** The further properties at concrete inputs *)

Lemma add_edge_keeps_wf_witness :
  wf_graph (demo_graph true) ∧
  wf_graph (add_edge (demo_graph true) "A"%string "Z"%string 3 true).1.
Proof.
  split; [exact (demo_graph_wf true)|].
  exact (add_edge_keeps_wf (demo_graph true) "A"%string "Z"%string 3 true
           (demo_graph_wf true)).
Defined.

Lemma reconstruct_path_follows_links_witness :
  reconstruct_path 6 demo_prev "E" = Ret ["A"; "C"; "B"; "E"]%string ∧
  ((demo_prev !! "E"%string = None ∧ ["A"; "C"; "B"; "E"]%string = []) ∨
   (last ["A"; "C"; "B"; "E"]%string = Some "E"%string ∧
    (∃ root, head ["A"; "C"; "B"; "E"]%string = Some root ∧
             demo_prev !! root = Some None) ∧
    linked demo_prev ["A"; "C"; "B"; "E"]%string)).
Proof.
  assert (reconstruct_path 6 demo_prev "E" = Ret ["A"; "C"; "B"; "E"]%string)
    as Hrun by (vm_compute; reflexivity).
  split; [exact Hrun|].
  exact (reconstruct_path_follows_links demo_prev "E"%string 6 _ Hrun).
Defined.

Lemma reconstruct_path_dangling_witness :
  rtc (pred_link ({[ "a"%string := Some "b"%string ]} : gmap string (option string)))
      "a"%string "a"%string ∧
  ({[ "a"%string := Some "b"%string ]} : gmap string (option string)) !! "a"%string
  = Some (Some "b"%string) ∧
  ({[ "a"%string := Some "b"%string ]} : gmap string (option string)) !! "b"%string
  = None ∧
  ∃ n0, ∀ n, (n0 ≤ n)%nat →
    reconstruct_path n ({[ "a"%string := Some "b"%string ]} : gmap string (option string))
      "a"%string = Raise KeyError.
Proof.
  assert (({[ "a"%string := Some "b"%string ]} : gmap string (option string))
            !! "a"%string = Some (Some "b"%string)) as Ha
    by (vm_compute; reflexivity).
  assert (({[ "a"%string := Some "b"%string ]} : gmap string (option string))
            !! "b"%string = None) as Hb
    by (vm_compute; reflexivity).
  split_and!; [apply rtc_refl | exact Ha | exact Hb |].
  exact (reconstruct_path_dangling _ "a"%string "a"%string "b"%string
           (rtc_refl _ _) Ha Hb).
Defined.

Lemma reconstruct_path_cycle_witness :
  tc (pred_link (<[ "a"%string := Some "b"%string ]>
                   {[ "b"%string := Some "a"%string ]} : gmap string (option string)))
     "a"%string "a"%string ∧
  ∀ n, reconstruct_path n
         (<[ "a"%string := Some "b"%string ]>
            {[ "b"%string := Some "a"%string ]} : gmap string (option string))
         "a"%string = OutOfFuel.
Proof.
  assert (tc (pred_link (<[ "a"%string := Some "b"%string ]>
                   {[ "b"%string := Some "a"%string ]} : gmap string (option string)))
             "a"%string "a"%string) as Htc.
  { eapply tc_l; [|apply tc_once]; unfold pred_link; vm_compute; reflexivity. }
  split; [exact Htc|].
  exact (reconstruct_path_cycle _ "a"%string Htc).
Defined.

Lemma distances_ignore_tie_break_witness :
  wf_graph (demo_graph true) ∧ "A"%string ∈ dom (demo_graph true) ∧
  (dijkstra_fuel (demo_graph true) ≤ 18)%nat ∧
  (dijkstra_fuel (demo_graph true) ≤ 20)%nat ∧
  ∃ d p1 p2,
    dijkstra String.ltb 18 (demo_graph true) "A" = (demo_graph true, Ret (d, p1)) ∧
    dijkstra (λ a b, String.ltb b a) 20 (demo_graph true) "A"
    = (demo_graph true, Ret (d, p2)).
Proof.
  assert (dijkstra_fuel (demo_graph true) ≤ 18)%nat as Hfuel
    by (vm_compute; lia).
  assert (dijkstra_fuel (demo_graph true) ≤ 20)%nat as Hfuel'
    by (vm_compute; lia).
  split_and!; [exact (demo_graph_wf true) | exact demo_graph_source
              | exact Hfuel | exact Hfuel' |].
  exact (distances_ignore_tie_break String.ltb (λ a b, String.ltb b a)
           (demo_graph true) "A"%string 18%nat 20%nat
           (demo_graph_wf true) demo_graph_source Hfuel Hfuel').
Defined.

Lemma insertion_never_lengthens_witness :
  wf_graph (demo_graph true) ∧ "A"%string ∈ dom (demo_graph true) ∧ 0 ≤ 1 ∧
  (dijkstra_fuel (demo_graph true) ≤ 18)%nat ∧
  (dijkstra_fuel (add_edge (demo_graph true) "A"%string "E"%string 1 false).1 ≤ 19)%nat ∧
  ∃ g' d p d' p',
    add_edge (demo_graph true) "A"%string "E"%string 1 false = (g', Ret ()) ∧
    dijkstra String.ltb 18 (demo_graph true) "A" = (demo_graph true, Ret (d, p)) ∧
    dijkstra String.ltb 19 g' "A" = (g', Ret (d', p')) ∧
    ∀ x dx, d !! x = Some dx → ∃ dx', d' !! x = Some dx' ∧ num_le dx' dx.
Proof.
  assert (0 ≤ 1) as Hw by lia.
  assert (dijkstra_fuel (demo_graph true) ≤ 18)%nat as Hfuel
    by (vm_compute; lia).
  assert (dijkstra_fuel
            (add_edge (demo_graph true) "A"%string "E"%string 1 false).1 ≤ 19)%nat
    as Hfuel' by (vm_compute; lia).
  split_and!; [exact (demo_graph_wf true) | exact demo_graph_source
              | exact Hw | exact Hfuel | exact Hfuel' |].
  exact (insertion_never_lengthens String.ltb (demo_graph true) "A"%string
           "A"%string "E"%string 1 false 18%nat 19%nat
           (demo_graph_wf true) demo_graph_source Hw Hfuel Hfuel').
Defined.

Lemma read_edges_from_file_graph_witness :
  Forall2 (λ row t, row_triple int_literal row = Some t)
    (long_rows [["A"; "B"; "4"]; ["x"]; ["B"; "C"; "1"; "note"]]%string)
    [("A", "B", 4); ("B", "C", 1)]%string ∧
  Forall (λ t : string * string * Z, 0 ≤ t.2)
    [("A", "B", 4); ("B", "C", 1)]%string ∧
  ∃ g,
    read_edges_from_file int_literal
      [["A"; "B"; "4"]; ["x"]; ["B"; "C"; "1"; "note"]]%string true = Ret g ∧
    add_edges empty_graph
      (map (λ t, (t, true)) [("A", "B", 4); ("B", "C", 1)]%string) = (g, Ret ()) ∧
    wf_graph g ∧
    ∀ a b c, edge g a b c ↔
      ∃ t, t ∈ [("A", "B", 4); ("B", "C", 1)]%string ∧ op_edge (t, true) a b c.
Proof.
  assert (Forall2 (λ row t, row_triple int_literal row = Some t)
            (long_rows [["A"; "B"; "4"]; ["x"]; ["B"; "C"; "1"; "note"]]%string)
            [("A", "B", 4); ("B", "C", 1)]%string) as Hrows.
  { vm_compute. repeat constructor. }
  assert (Forall (λ t : string * string * Z, 0 ≤ t.2)
            [("A", "B", 4); ("B", "C", 1)]%string) as Hnn
    by (repeat constructor; simpl; lia).
  split_and!; [exact Hrows | exact Hnn |].
  exact (read_edges_from_file_graph int_literal true _ _ Hrows Hnn).
Defined.

Lemma read_edges_from_file_bad_row_witness :
  Exists (bad_row int_literal)
    (long_rows [["A"; "B"; "4"]; ["B"; "C"; "-1"]; ["C"; "D"; "2"]]%string) ∧
  read_edges_from_file int_literal
    [["A"; "B"; "4"]; ["B"; "C"; "-1"]; ["C"; "D"; "2"]]%string false
  = Raise ValueError.
Proof.
  assert (Exists (bad_row int_literal)
            (long_rows [["A"; "B"; "4"]; ["B"; "C"; "-1"]; ["C"; "D"; "2"]]%string))
    as Hbad.
  { apply Exists_cons_tl, Exists_cons_hd. vm_compute. reflexivity. }
  split; [exact Hbad|].
  exact (read_edges_from_file_bad_row int_literal false _ Hbad).
Defined.

(** * The float-level model *)

Section F64Proofs.
Context {V : Type} `{Countable V} {F : Type}.
Variable Fl : F64.ops F.
Hypothesis HL : F64.laws Fl.
#[local] Set Default Proof Using "Type*".

#[local] Abbreviation fle := (F64.le Fl).
#[local] Abbreviation fadd := (F64.add Fl).
#[local] Abbreviation fltb := (F64.ltb Fl).
#[local] Abbreviation feqb := (F64.eqb Fl).
#[local] Abbreviation finf := (F64.inf Fl).
#[local] Abbreviation fzero := (F64.zero Fl).
#[local] Abbreviation FGraph := (gmap V (list (V * F))).
#[local] Abbreviation fentry := (F * V)%type.
Implicit Types (g : FGraph) (st : F64.locals (V:=V) (F:=F)) (u v s : V).

(** ** Consequences of the laws *)

Lemma fle_refl (a : F) : fle a a.
Proof. apply (F64.ltb_irrefl Fl HL). Qed.

Lemma fltb_le (a b : F) : fltb a b = true → fle a b.
Proof. apply (F64.ltb_asym Fl HL). Qed.

Lemma fle_tr (a b c : F) : fle a b → fle b c → fle a c.
Proof. apply (F64.le_trans Fl HL). Qed.

Lemma fltb_le_trans (a b c : F) : fltb a b = true → fle b c → fltb a c = true.
Proof.
  intros Hab Hbc. destruct (fltb a c) eqn:Hac; [done|].
  assert (fle b a) as Hba by (by eapply fle_tr).
  unfold F64.le in Hba. congruence.
Qed.

Lemma fle_fltb_trans (a b c : F) : fle a b → fltb b c = true → fltb a c = true.
Proof.
  intros Hab Hbc. destruct (fltb a c) eqn:Hac; [done|].
  assert (fle c b) as Hcb by (by eapply fle_tr).
  unfold F64.le in Hcb. congruence.
Qed.

Lemma fltb_not_inf (a b : F) : fltb a b = true → a ≠ finf.
Proof.
  intros Hab ->. pose proof (F64.inf_top Fl HL b) as Htop.
  unfold F64.le in Htop. congruence.
Qed.

Lemma fltb_not_le (a b : F) : fltb a b = true → ¬ fle b a.
Proof. unfold F64.le. congruence. Qed.

Lemma feqb_true (a b : F) : feqb a b = true ↔ a = b.
Proof. apply (F64.eqb_eq Fl HL). Qed.

Lemma feqb_false (a b : F) : feqb a b = false ↔ a ≠ b.
Proof.
  rewrite <- feqb_true. destruct (feqb a b); split; congruence.
Qed.

Lemma fle_zero_add (a w : F) : fle fzero a → fle fzero w → fle fzero (fadd a w).
Proof.
  intros Ha Hw. eapply fle_tr; [exact Ha|]. by apply (F64.add_infl Fl HL).
Qed.

(** ** Paths and accumulated sums *)

Lemma f_is_path_app g a b c (p q : list (V * V * F)) :
  F64.is_path g a b p → F64.is_path g b c q → F64.is_path g a c (p ++ q).
Proof.
  revert a. induction p as [|e p IH]; simpl; intros a.
  - by intros ->.
  - intros (He & Hedge & Hp) Hq. split_and!; [done | done | by apply IH].
Qed.

Lemma f_path_sum_snoc (p : list (V * V * F)) (e : V * V * F) :
  F64.path_sum Fl (p ++ [e]) = fadd (F64.path_sum Fl p) e.2.
Proof. unfold F64.path_sum, F64.path_sum_from. by rewrite foldl_app. Qed.

Lemma f_is_path_snoc g a b c w (p : list (V * V * F)) :
  F64.is_path g a b p → F64.edge g b c w →
  F64.is_path g a c (p ++ [(b, c, w)]) ∧
  F64.path_sum Fl (p ++ [(b, c, w)]) = fadd (F64.path_sum Fl p) w.
Proof.
  intros Hp He. split.
  - eapply f_is_path_app; [done|]. simpl. done.
  - by rewrite f_path_sum_snoc.
Qed.

Lemma f_path_sum_from_mono g (p : list (V * V * F)) :
  F64.wf_graph Fl g →
  ∀ x y a b, F64.is_path g x y p → fle fzero a → fle a b →
    fle (F64.path_sum_from Fl a p) (F64.path_sum_from Fl b p).
Proof.
  intros Hwf. induction p as [|e p IH]; simpl; intros x y a b; [done|].
  intros (_ & He & Hp) Ha Hab. apply Hwf in He as [_ Hw].
  eapply IH; [done | by apply fle_zero_add |].
  by apply (F64.add_mono Fl HL).
Qed.

(** ** Counting edges *)

Lemma f_edge_count_delete g x l :
  g !! x = Some l →
  F64.edge_count g = (length l + F64.edge_count (delete x g))%nat.
Proof.
  intros Hx. unfold F64.edge_count.
  rewrite <- (map_to_list_delete g x l Hx). done.
Qed.

Lemma f_sum_outdeg_le (l : list V) g :
  NoDup l → (∀ x, x ∈ l → x ∈ dom g) →
  (sum_list_with (F64.outdeg g) l ≤ F64.edge_count g)%nat.
Proof.
  intros Hnd. revert g. induction Hnd as [|x l Hnin Hnd IH]; intros g Hdom.
  - simpl. lia.
  - assert (x ∈ dom g) as [lx Hx]%elem_of_dom by (apply Hdom; left).
    rewrite (f_edge_count_delete g x lx Hx). simpl.
    unfold F64.outdeg at 1. rewrite Hx. simpl.
    assert (sum_list_with (F64.outdeg g) l
            = sum_list_with (F64.outdeg (delete x g)) l) as ->.
    { clear IH Hnd. induction l as [|y l IHl]; [done|]. simpl.
      rewrite IHl.
      - f_equal. unfold F64.outdeg. rewrite lookup_delete_ne; [done|].
        intros ->. apply Hnin. left.
      - intros ?. apply Hnin. by right.
      - intros z Hz. apply Hdom. apply elem_of_cons in Hz as [->|Hz]; [left|].
        right. by right. }
    assert (sum_list_with (F64.outdeg (delete x g)) l
            ≤ F64.edge_count (delete x g))%nat; [|lia].
    apply IH. intros y Hy. rewrite dom_delete_L.
    apply elem_of_difference. split; [apply Hdom; by right|].
    intros ->%elem_of_singleton. done.
Qed.

Lemma f_adj_getitem_known g u l :
  g !! u = Some l → F64.adj_getitem g u = (g, l).
Proof. unfold F64.adj_getitem. by intros ->. Qed.


(** ** The heap *)

Variable vltb : V → V → bool.

Lemma f_entry_ltb_le (a b : fentry) :
  F64.entry_ltb vltb Fl a b = true → fle a.1 b.1.
Proof.
  unfold F64.entry_ltb. destruct (feqb a.1 b.1) eqn:E.
  - apply feqb_true in E. rewrite E. intros _. apply fle_refl.
  - apply fltb_le.
Qed.

Lemma f_entry_ltb_ge (a b : fentry) :
  F64.entry_ltb vltb Fl a b = false → fle b.1 a.1.
Proof.
  unfold F64.entry_ltb. destruct (feqb a.1 b.1) eqn:E.
  - apply feqb_true in E. rewrite E. intros _. apply fle_refl.
  - done.
Qed.

Lemma f_heap_min_in (best : fentry) (h : list fentry) :
  F64.heap_min vltb Fl best h ∈ best :: h.
Proof.
  revert best. induction h as [|e h IH]; intros best; simpl; [left|].
  specialize (IH (if F64.entry_ltb vltb Fl e best then e else best)).
  apply elem_of_cons in IH as [->|?].
  - destruct (F64.entry_ltb vltb Fl e best); [right; left | left].
  - right; by right.
Qed.

Lemma f_heap_min_le (best : fentry) (h : list fentry) (e : fentry) :
  e ∈ best :: h → fle (F64.heap_min vltb Fl best h).1 e.1.
Proof.
  revert best e. induction h as [|a h IH]; intros best e; simpl.
  - intros ->%list_elem_of_singleton. apply fle_refl.
  - set (b' := if F64.entry_ltb vltb Fl a best then a else best).
    assert (fle b'.1 best.1 ∧ fle b'.1 a.1) as [Hb Ha].
    { unfold b'. destruct (F64.entry_ltb vltb Fl a best) eqn:E.
      - split; [by apply f_entry_ltb_le | apply fle_refl].
      - split; [apply fle_refl | by apply f_entry_ltb_ge]. }
    intros [Heq|[Heq|Hin]%elem_of_cons]%elem_of_cons.
    + rewrite Heq. eapply fle_tr; [apply (IH b'); left | done].
    + rewrite Heq. eapply fle_tr; [apply (IH b'); left | done].
    + apply IH. by right.
Qed.

Lemma f_entry_eqb_eq (a b : fentry) : F64.entry_eqb Fl a b = true ↔ a = b.
Proof.
  unfold F64.entry_eqb. rewrite andb_true_iff, feqb_true, bool_decide_eq_true.
  destruct a, b; simpl. split; [by intros [-> ->] | by intros [= -> ->]].
Qed.

Lemma f_remove_first_subseteq (e x : fentry) (h : list fentry) :
  x ∈ F64.remove_first Fl e h → x ∈ h.
Proof.
  induction h as [|a h IH]; simpl; [done|].
  destruct (F64.entry_eqb Fl a e); [by right|].
  intros [->|?]%elem_of_cons; [left | right; auto].
Qed.

Lemma f_remove_first_other (e x : fentry) (h : list fentry) :
  x ∈ h → x = e ∨ x ∈ F64.remove_first Fl e h.
Proof.
  induction h as [|a h IH]; simpl; [by intros ?%elem_of_nil|].
  intros [->|Hin]%elem_of_cons.
  - destruct (F64.entry_eqb Fl a e) eqn:E.
    + left. by apply f_entry_eqb_eq.
    + right; left.
  - destruct (F64.entry_eqb Fl a e); [by right|].
    destruct (IH Hin); [by left | right; by right].
Qed.

Lemma f_remove_first_length (e : fentry) (h : list fentry) :
  e ∈ h → S (length (F64.remove_first Fl e h)) = length h.
Proof.
  induction h as [|a h IH]; simpl; [by intros ?%elem_of_nil|].
  intros Hin. destruct (F64.entry_eqb Fl a e) eqn:E; [done|]. simpl.
  apply elem_of_cons in Hin as [->|?]; [|by rewrite IH].
  assert (F64.entry_eqb Fl a a = true) by (by apply f_entry_eqb_eq).
  congruence.
Qed.

Lemma f_remove_first_nodup (e : fentry) (h : list fentry) :
  NoDup h → NoDup (F64.remove_first Fl e h) ∧ e ∉ F64.remove_first Fl e h.
Proof.
  induction 1 as [|a h Hnin Hnd IH]; simpl.
  - split; [constructor | by intros ?%elem_of_nil].
  - destruct (F64.entry_eqb Fl a e) eqn:E.
    + apply f_entry_eqb_eq in E as ->. done.
    + destruct IH as [IH1 IH2]. split.
      * constructor; [|done]. intros ?%f_remove_first_subseteq. done.
      * intros [->|?]%elem_of_cons; [|done].
        assert (F64.entry_eqb Fl a a = true) by (by apply f_entry_eqb_eq).
        congruence.
Qed.

Lemma f_heappop_spec (h : list fentry) (e : fentry) (h' : list fentry) :
  F64.heappop vltb Fl h = Some (e, h') →
  e ∈ h ∧ h' = F64.remove_first Fl e h ∧ (∀ a : fentry, a ∈ h → fle e.1 a.1).
Proof.
  destruct h as [|a h]; simpl; [done|]. intros [= <- <-]. split_and!.
  - apply f_heap_min_in.
  - done.
  - intros x Hx. by apply f_heap_min_le.
Qed.

Lemma f_heappop_none (h : list fentry) : F64.heappop vltb Fl h = None → h = [].
Proof. by destruct h. Qed.

(** ** The invariant holds when the loop is entered *)

Lemma f_init_dist g s v d :
  F64.dist (F64.init_locals Fl g s) !! v = Some d →
  (v = s ∧ d = fzero) ∨ d = finf.
Proof.
  unfold F64.init_locals; simpl. destruct (decide (s = v)) as [->|Hne].
  - rewrite lookup_insert_eq. intros [= <-]. by left.
  - rewrite lookup_insert_ne, lookup_fmap by done.
    destruct (g !! v); simpl; [|done]. intros [= <-]. by right.
Qed.

Lemma f_inv_init g s l :
  g !! s = Some l → F64.inv Fl g s [] fzero (F64.init_locals Fl g s).
Proof.
  intros Hs. assert (s ∈ dom g) as Hdom by (apply elem_of_dom; eauto).
  pose proof (F64.zero_finite Fl HL) as Hz.
  constructor.
  - simpl. rewrite dom_insert_L, dom_fmap_L. set_solver.
  - simpl. by rewrite dom_fmap_L.
  - simpl. by rewrite lookup_insert_eq.
  - simpl. by rewrite lookup_fmap, Hs.
  - split; [apply fle_refl | done].
  - intros v d [[-> ->]| ->]%f_init_dist; [apply fle_refl|].
    apply (F64.inf_top Fl HL).
  - intros v d [[-> ->]| ->]%f_init_dist Hd; [|done]. by exists [].
  - intros v d [[-> ->]| ->]%f_init_dist Hd; [|done]. right. simpl. left.
  - simpl. intros d y [= -> ->]%list_elem_of_singleton.
    split_and!; [done | apply fle_refl |]. exists fzero.
    rewrite lookup_insert_eq. split; [done | apply fle_refl].
  - simpl. apply NoDup_singleton.
  - constructor.
  - by intros x ?%elem_of_nil.
  - simpl. intros v u. rewrite lookup_fmap. destruct (g !! v); simpl; done.
  - intros v d [[-> ->]| ->]%f_init_dist Hd; [by left | done].
Qed.

Lemma f_all_relaxed_init g s :
  F64.all_relaxed Fl g [] (F64.init_locals Fl g s).
Proof. by intros x l ?%elem_of_nil. Qed.

(** ** Popping an entry *)

Lemma f_inv_pop_stale g s done m st d u h' du :
  F64.inv Fl g s done m st →
  F64.heappop vltb Fl (F64.heap st) = Some ((d, u), h') →
  F64.dist st !! u = Some du → d ≠ du →
  F64.inv Fl g s done m (F64.Locals (F64.dist st) (F64.prev st) h').
Proof.
  intros [Idd Idp Isd Isp Ilv Inn Isnd Ipend Iheap Ind Idn Idone Iprev Ips] (Hin & -> & Hmin)%f_heappop_spec Hu Hne.
  constructor; simpl; try done.
  - intros v dv Hv Hfin.
    destruct (Ipend v dv Hv Hfin) as [?|Hh]; [by left|].
    right. apply (f_remove_first_other (d, u)) in Hh as [[= <- ->]|?];
      [|done].
    congruence.
  - intros d' y Hy%f_remove_first_subseteq. by apply Iheap.
  - by apply f_remove_first_nodup.
  - intros x Hx. destruct (Idone x Hx) as (dx & ? & ? & ? & Hnin).
    exists dx. split_and!; [done..|]. by intros ?%f_remove_first_subseteq.
Qed.

Lemma f_inv_pop_fresh g s done m st d u h' :
  F64.inv Fl g s done m st →
  F64.heappop vltb Fl (F64.heap st) = Some ((d, u), h') →
  F64.dist st !! u = Some d →
  d ≠ finf ∧ (u ∉ done) ∧
  F64.inv Fl g s (done ++ [u]) d (F64.Locals (F64.dist st) (F64.prev st) h').
Proof.
  intros [Idd Idp Isd Isp Ilv Inn Isnd Ipend Iheap Ind Idn Idone Iprev Ips] (Hin & -> & Hmin)%f_heappop_spec Hu.
  destruct (Iheap d u Hin) as (Hfin & Hmd & _).
  assert (u ∉ done) as Hnd.
  { intros (dx & Hdx & _ & _ & Hnin)%Idone. congruence. }
  split_and!; [done..|].
  constructor; simpl; try done.
  - split; [|done]. eapply fle_tr; [apply Ilv | done].
  - intros v dv Hv Hvfin. destruct (Ipend v dv Hv Hvfin) as [?|Hh].
    + left. apply elem_of_app. by left.
    + apply (f_remove_first_other (d, u)) in Hh as [[= -> ->]|?];
        [|by right].
      left. apply elem_of_app. right. left.
  - intros d' y Hy. pose proof (f_remove_first_subseteq _ _ _ Hy) as Hy'.
    destruct (Iheap d' y Hy') as (? & ? & ?).
    split_and!; [done| |done]. exact (Hmin _ Hy').
  - by apply f_remove_first_nodup.
  - apply NoDup_app. split_and!; [done| |apply NoDup_singleton].
    intros x ? ->%list_elem_of_singleton. done.
  - intros x [Hx | ->%list_elem_of_singleton]%elem_of_app.
    + destruct (Idone x Hx) as (dx & ? & ? & ? & Hnin).
      exists dx. split_and!; [done | done | by eapply fle_tr |].
      by intros ?%f_remove_first_subseteq.
    + exists d. split_and!; [done | done | apply fle_refl |].
      by apply f_remove_first_nodup.
  - intros v u' Hp. destruct (Iprev v u' Hp) as [Hlt Hrest]. split; [|done].
    assert (u' ∈ done).
    { apply pos_lt_length. pose proof (pos_le_length done v). lia. }
    rewrite (pos_app_in done [u] u') by done.
    pose proof (pos_app_le done [u] v). lia.
Qed.

(** ** Relaxing the edges of a popped vertex *)

Lemma f_relax_edge_inv g s done m st u v w :
  F64.wf_graph Fl g → F64.inv Fl g s done m st → u ∈ done →
  F64.dist st !! u = Some m → F64.edge g u v w →
  ∃ st', F64.relax_edge Fl m u st (v, w) = F64.Ret st' ∧
    F64.inv Fl g s done m st' ∧
    (length (F64.heap st') ≤ S (length (F64.heap st)))%nat ∧
    (∀ x, x ∈ done → F64.dist st' !! x = F64.dist st !! x) ∧
    (∀ x dx, F64.dist st !! x = Some dx →
       ∃ dx', F64.dist st' !! x = Some dx' ∧ fle dx' dx) ∧
    F64.relaxed Fl st' u [(v, w)].
Proof.
  intros Hwf Hinv Hu Hdu He. destruct (Hwf _ _ _ He) as [Hv Hw].
  pose proof Hinv as [Idd Idp Isd Isp [Hm0 Hmfin] Inn Isnd Ipend Iheap Ind Idn Idone Iprev Ips].
  assert (is_Some (F64.dist st !! v)) as [dv Hdv].
  { apply elem_of_dom. by rewrite Idd. }
  assert (fle m (fadd m w)) as Hinfl by (by apply (F64.add_infl Fl HL)).
  unfold F64.relax_edge. cbn [fst snd]. rewrite Hdv.
  destruct (fltb (fadd m w) dv) eqn:Hlt.
  - (* the distance of [v] improves *)
    pose proof (fltb_not_inf _ _ Hlt) as Haltfin.
    assert (v ∉ done) as Hvd.
    { intros (d' & Hd' & _ & Hle & _)%Idone. rewrite Hdv in Hd'.
      injection Hd' as ->. eapply (fltb_not_le _ _ Hlt). by eapply fle_tr. }
    assert (v ≠ u) as Hvu by (by intros ->).
    assert (v ≠ s) as Hvs.
    { intros ->. rewrite Isd in Hdv. injection Hdv as <-.
      eapply (fltb_not_le _ _ Hlt). by eapply fle_tr. }
    eexists. split; [done|]. split_and!.
    + constructor; simpl; try done.
      * rewrite dom_insert_lookup_L; eauto.
      * rewrite dom_insert_lookup_L; [done|].
        apply elem_of_dom. by rewrite Idp.
      * by rewrite lookup_insert_ne.
      * by rewrite lookup_insert_ne.
      * intros x d. destruct (decide (v = x)) as [<-|Hne].
        -- rewrite lookup_insert_eq. intros [= <-]. by eapply fle_tr.
        -- rewrite lookup_insert_ne by done. apply Inn.
      * intros x d. destruct (decide (v = x)) as [<-|Hne].
        -- rewrite lookup_insert_eq. intros [= <-] _.
           destruct (Isnd u m Hdu Hmfin) as (p & Hp & Hpw).
           destruct (f_is_path_snoc g s u v w p Hp He) as [Hp' Hw'].
           eexists. split; [done|]. by rewrite Hw', Hpw.
        -- rewrite lookup_insert_ne by done. apply Isnd.
      * intros x d. unfold F64.heappush.
        destruct (decide (v = x)) as [<-|Hne].
        -- rewrite lookup_insert_eq. intros [= <-] _. right. left.
        -- rewrite lookup_insert_ne by done. intros Hx Hfin.
           destruct (Ipend x d Hx Hfin); [by left | right; by right].
      * unfold F64.heappush. intros d y [[= -> ->]|Hy]%elem_of_cons.
        -- split_and!; [done..|]. exists (fadd m w).
           rewrite lookup_insert_eq. split; [done | apply fle_refl].
        -- destruct (Iheap d y Hy) as (? & ? & dy & Hy1 & Hy2).
           split_and!; [done..|].
           destruct (decide (v = y)) as [<-|Hne].
           ++ exists (fadd m w). rewrite lookup_insert_eq.
              split; [done|]. rewrite Hdv in Hy1. injection Hy1 as <-.
              apply fltb_le. by eapply fltb_le_trans.
           ++ exists dy. by rewrite lookup_insert_ne.
      * unfold F64.heappush. constructor; [|done]. intros Hin.
        destruct (Iheap _ _ Hin) as (_ & _ & dy & Hy1 & Hy2).
        rewrite Hdv in Hy1. injection Hy1 as <-.
        by apply (fltb_not_le _ _ Hlt).
      * intros x Hx. destruct (Idone x Hx) as (d & ? & ? & ? & Hnin).
        assert (v ≠ x) by (by intros ->).
        exists d. rewrite lookup_insert_ne by done. split_and!; [done..|].
        unfold F64.heappush. intros [[= _ ->]|?]%elem_of_cons; done.
      * intros x y. destruct (decide (v = x)) as [<-|Hne].
        -- rewrite lookup_insert_eq. intros [= <-]. split.
           ++ rewrite (pos_not_in done v) by done. by apply pos_lt_length.
           ++ exists m, w. rewrite lookup_insert_eq, lookup_insert_ne by done.
              done.
        -- rewrite lookup_insert_ne by done. intros Hp.
           destruct (Iprev x y Hp)
             as [Hpos (du & w' & Hy & Hxy & Hx & Hfin)].
           split; [done|]. exists du, w'.
           assert (y ∈ done).
           { apply pos_lt_length. pose proof (pos_le_length done x). lia. }
           assert (v ≠ y) by (by intros ->).
           by rewrite !lookup_insert_ne.
      * intros x d. destruct (decide (v = x)) as [<-|Hne].
        -- intros _ _. right. exists u. by rewrite lookup_insert_eq.
        -- rewrite !lookup_insert_ne by done. apply Ips.
    + simpl. lia.
    + simpl. intros x Hx. rewrite lookup_insert_ne; [done|]. by intros ->.
    + simpl. intros x dx Hx. destruct (decide (v = x)) as [<-|Hne].
      * rewrite lookup_insert_eq. eexists. split; [done|].
        rewrite Hdv in Hx. injection Hx as <-. by apply fltb_le.
      * rewrite lookup_insert_ne by done. exists dx. split; [done|].
        apply fle_refl.
    + intros d v' w'. simpl. rewrite lookup_insert_ne by done.
      rewrite Hdu. intros [= <-] [= -> ->]%list_elem_of_singleton.
      rewrite lookup_insert_eq. eexists. split; [done|]. apply fle_refl.
  - (* no improvement *)
    exists st. split_and!; try done.
    + lia.
    + intros x dx Hx. exists dx. split; [done | apply fle_refl].
    + intros d v' w'. rewrite Hdu.
      intros [= <-] [= -> ->]%list_elem_of_singleton. by exists dv.
Qed.

Lemma f_relaxed_mono st st' (x : V) (l : list (V * F)) :
  F64.dist st' !! x = F64.dist st !! x →
  (∀ y dy, F64.dist st !! y = Some dy →
     ∃ dy', F64.dist st' !! y = Some dy' ∧ fle dy' dy) →
  F64.relaxed Fl st x l → F64.relaxed Fl st' x l.
Proof.
  intros Hx Hmono Hrel d' v w Hd Hin. rewrite Hx in Hd.
  destruct (Hrel d' v w Hd Hin) as (dv & Hdv & Hle).
  destruct (Hmono v dv Hdv) as (dv' & ? & ?).
  exists dv'. split; [done|]. by eapply fle_tr.
Qed.

Lemma f_relax_inv g s done m u (l : list (V * F)) : ∀ st,
  F64.wf_graph Fl g → F64.inv Fl g s done m st → u ∈ done →
  F64.dist st !! u = Some m → (∀ v w, (v, w) ∈ l → F64.edge g u v w) →
  ∃ st', F64.relax Fl m u st l = F64.Ret st' ∧
    F64.inv Fl g s done m st' ∧
    (length (F64.heap st') ≤ length (F64.heap st) + length l)%nat ∧
    (∀ x, x ∈ done → F64.dist st' !! x = F64.dist st !! x) ∧
    (∀ x dx, F64.dist st !! x = Some dx →
       ∃ dx', F64.dist st' !! x = Some dx' ∧ fle dx' dx) ∧
    F64.relaxed Fl st' u l.
Proof.
  induction l as [|[v w] l IH]; intros st Hwf Hinv Hu Hdu Hedges.
  - exists st. simpl. split_and!; try done.
    + lia.
    + intros x dx Hx. exists dx. split; [done | apply fle_refl].
    + intros d v w _ ?%elem_of_nil. done.
  - destruct (f_relax_edge_inv g s done m st u v w) as
      (st1 & Hrun & Hinv1 & Hlen1 & Hsame1 & Hmono1 & Hrel1); try done.
    { apply Hedges. left. }
    destruct (IH st1) as (st2 & Hrun2 & Hinv2 & Hlen2 & Hsame2 & Hmono2 & Hrel2);
      try done.
    { rewrite Hsame1; done. }
    { intros ???. apply Hedges. by right. }
    exists st2. simpl. rewrite Hrun. split_and!; try done.
    + simpl. lia.
    + intros x Hx. rewrite Hsame2, Hsame1; done.
    + intros x dx Hx. destruct (Hmono1 x dx Hx) as (d1 & Hd1 & Hle1).
      destruct (Hmono2 x d1 Hd1) as (d2 & Hd2 & Hle2).
      exists d2. split; [done|]. by eapply fle_tr.
    + assert (F64.relaxed Fl st2 u [(v, w)]) as Hrel1'.
      { eapply (f_relaxed_mono st1); [by apply Hsame2 | done | done]. }
      intros d v' w' Hd [[= -> ->]|Hin]%elem_of_cons.
      * apply (Hrel1' d v w Hd). left.
      * by apply (Hrel2 d v' w' Hd).
Qed.

(** ** The loop runs to completion and keeps the invariant *)

Lemma f_inv_done_dom g s done m st x :
  F64.inv Fl g s done m st → x ∈ done → x ∈ dom g.
Proof.
  intros Hinv Hx. destruct (F64.inv_done _ _ _ _ _ _ Hinv x Hx) as (d & Hd & _).
  rewrite <- (F64.inv_dom_dist _ _ _ _ _ _ Hinv). apply elem_of_dom. eauto.
Qed.

Lemma f_while_body_inv g s done m st d u h' :
  F64.wf_graph Fl g → F64.inv Fl g s done m st →
  F64.all_relaxed Fl g done st →
  F64.heappop vltb Fl (F64.heap st) = Some ((d, u), h') →
  ∃ st' done' m',
    F64.while_body Fl g st d u h' = (g, F64.Ret st') ∧
    F64.inv Fl g s done' m' st' ∧ F64.all_relaxed Fl g done' st' ∧
    (length (F64.heap st') + sum_list_with (F64.outdeg g) done
     < length (F64.heap st) + sum_list_with (F64.outdeg g) done')%nat.
Proof.
  intros Hwf Hinv Hrel Hpop.
  pose proof (f_heappop_spec _ _ _ Hpop) as (Hin & Hh' & _).
  pose proof (f_remove_first_length _ _ Hin) as Hlen. rewrite <- Hh' in Hlen.
  destruct (F64.inv_heap _ _ _ _ _ _ Hinv d u Hin) as (_ & _ & du & Hdu & _).
  unfold F64.while_body. rewrite Hdu. destruct (feqb d du) eqn:Heq; simpl.
  - (* a current entry: relax the edges of [u] *)
    apply feqb_true in Heq as <-.
    destruct (f_inv_pop_fresh g s done m st d u h' Hinv Hpop Hdu)
      as (Hfin & Hnd & Hinv1).
    assert (u ∈ dom g) as [l Hl]%elem_of_dom.
    { rewrite <- (F64.inv_dom_dist _ _ _ _ _ _ Hinv). apply elem_of_dom. eauto. }
    rewrite (f_adj_getitem_known g u l Hl).
    destruct (f_relax_inv g s (done ++ [u]) d u l
                (F64.Locals (F64.dist st) (F64.prev st) h'))
      as (st2 & Hrun & Hinv2 & Hlen2 & Hsame & Hmono & Hrelu); try done.
    { apply elem_of_app. right. left. }
    { intros v w Hvw. by exists l. }
    rewrite Hrun. exists st2, (done ++ [u]), d. split_and!; [done..| |].
    + intros x lx [Hx | ->%list_elem_of_singleton]%elem_of_app Hlx.
      * eapply (f_relaxed_mono (F64.Locals (F64.dist st) (F64.prev st) h')).
        -- apply Hsame. apply elem_of_app. by left.
        -- done.
        -- exact (Hrel x lx Hx Hlx).
      * rewrite Hl in Hlx. by injection Hlx as <-.
    + rewrite sum_list_with_app. simpl. unfold F64.outdeg at 3. rewrite Hl.
      simpl in *. lia.
  - (* a stale entry *)
    apply feqb_false in Heq.
    exists (F64.Locals (F64.dist st) (F64.prev st) h'), done, m.
    split_and!; [done| |done|].
    + by eapply f_inv_pop_stale.
    + simpl. lia.
Qed.

Lemma f_while_heap_inv g s : F64.wf_graph Fl g → ∀ fuel done m st,
  F64.inv Fl g s done m st → F64.all_relaxed Fl g done st →
  (length (F64.heap st) + F64.edge_count g
   < fuel + sum_list_with (F64.outdeg g) done)%nat →
  ∃ d p done' m',
    F64.while_heap vltb Fl fuel g st = (g, F64.Ret (d, p)) ∧
    F64.inv Fl g s done' m' (F64.Locals d p []) ∧
    F64.all_relaxed Fl g done' (F64.Locals d p []).
Proof.
  intros Hwf. induction fuel as [|n IH]; intros done m st Hinv Hrel Hfuel.
  { pose proof (f_sum_outdeg_le done g (F64.inv_done_nodup _ _ _ _ _ _ Hinv)
      (λ x, f_inv_done_dom g s done m st x Hinv)). lia. }
  simpl. destruct (F64.heappop vltb Fl (F64.heap st)) as [[[d u] h']|] eqn:Hpop.
  - destruct (f_while_body_inv g s done m st d u h') as
      (st' & done' & m' & -> & Hinv' & Hrel' & Hdec); try done.
    apply (IH done' m' st' Hinv' Hrel'). lia.
  - apply f_heappop_none in Hpop. destruct st as [d p h]; simpl in *; subst h.
    by exists d, p, done, m.
Qed.

Lemma f_dijkstra_inv g s fuel :
  F64.wf_graph Fl g → s ∈ dom g → (F64.dijkstra_fuel g ≤ fuel)%nat →
  ∃ d p done m,
    F64.dijkstra vltb Fl fuel g s = (g, F64.Ret (d, p)) ∧
    F64.inv Fl g s done m (F64.Locals d p []) ∧
    F64.all_relaxed Fl g done (F64.Locals d p []).
Proof.
  intros Hwf [l Hl]%elem_of_dom Hfuel.
  change (F64.dijkstra vltb Fl fuel g s)
    with (match g !! s with
          | None => (g, F64.Raise F64.KeyError)
          | Some _ => F64.while_heap vltb Fl fuel g (F64.init_locals Fl g s)
          end).
  rewrite Hl. apply (f_while_heap_inv g s Hwf fuel [] fzero).
  - by eapply f_inv_init.
  - apply f_all_relaxed_init.
  - unfold F64.dijkstra_fuel in Hfuel. simpl. lia.
Qed.

(** ** What the invariant gives when the heap is empty *)

Lemma f_is_path_dom g a b (p : list (V * V * F)) :
  F64.wf_graph Fl g → a ∈ dom g → F64.is_path g a b p → b ∈ dom g.
Proof.
  intros Hwf. revert a. induction p as [|e p IH]; simpl; intros a Ha.
  - by intros <-.
  - intros (_ & He & Hp). apply Hwf in He as [Hd _]. by apply (IH _ Hd).
Qed.

Lemma f_path_sum_from_infl g (p : list (V * V * F)) :
  F64.wf_graph Fl g →
  ∀ x y a, F64.is_path g x y p → fle fzero a →
    fle a (F64.path_sum_from Fl a p).
Proof.
  intros Hwf. induction p as [|e p IH]; simpl; intros x y a.
  - intros _ _. apply fle_refl.
  - intros (_ & He & Hp) Ha. apply Hwf in He as [_ Hw].
    change (fle a (F64.path_sum_from Fl (fadd a e.2) p)).
    eapply (fle_tr _ (fadd a e.2)); [by apply (F64.add_infl Fl HL)|].
    eapply IH; [done|]. by apply fle_zero_add.
Qed.

Lemma fle_inf_eq (a : F) : fle finf a → a = finf.
Proof.
  intros Hle. apply (F64.le_antisym Fl HL); [apply (F64.inf_top Fl HL) | done].
Qed.

Lemma f_final_done g s done m d p v z :
  F64.inv Fl g s done m (F64.Locals d p []) →
  d !! v = Some z → z ≠ finf → v ∈ done.
Proof.
  intros Hinv Hv Hz.
  destruct (F64.inv_pending _ _ _ _ _ _ Hinv v z Hv Hz) as [?|Hin];
    [done | by apply elem_of_nil in Hin].
Qed.

Lemma f_final_lower_bound g s done m d p (pth : list (V * V * F)) :
  F64.wf_graph Fl g →
  F64.inv Fl g s done m (F64.Locals d p []) →
  F64.all_relaxed Fl g done (F64.Locals d p []) →
  ∀ a b da, F64.is_path g a b pth → d !! a = Some da →
    ∃ db, d !! b = Some db ∧ fle db (F64.path_sum_from Fl da pth).
Proof.
  intros Hwf Hinv Hrel. induction pth as [|e pth IH]; intros a b da Hp Ha.
  - simpl in Hp. subst b. exists da. split; [done | apply fle_refl].
  - pose proof (F64.inv_nonneg _ _ _ _ _ _ Hinv a da Ha) as Hda0.
    destruct (feqb da finf) eqn:Hfin;
      [apply feqb_true in Hfin as -> | apply feqb_false in Hfin].
    + assert (a ∈ dom g) as Hadom.
      { rewrite <- (F64.inv_dom_dist _ _ _ _ _ _ Hinv). apply elem_of_dom.
        simpl. eauto. }
      pose proof (f_is_path_dom g a b _ Hwf Hadom Hp) as Hb.
      rewrite <- (F64.inv_dom_dist _ _ _ _ _ _ Hinv) in Hb.
      apply elem_of_dom in Hb as [db Hdb]. simpl in Hdb.
      exists db. split; [done|].
      eapply fle_tr; [apply (F64.inf_top Fl HL)|].
      by eapply (f_path_sum_from_infl g).
    + destruct Hp as (_ & (l & Hl & Hin) & Hp).
      assert (a ∈ done) as Hdone by (by eapply f_final_done).
      destruct (Hrel a l Hdone Hl da _ _ Ha Hin) as (dv & Hdv & Hle).
      simpl in Hdv.
      destruct (IH _ b dv Hp Hdv) as (db & Hdb & Hle').
      exists db. split; [done|]. eapply fle_tr; [exact Hle'|].
      simpl. eapply (f_path_sum_from_mono g); [done | done | | done].
      by apply (F64.inv_nonneg _ _ _ _ _ _ Hinv _ _ Hdv).
Qed.

Lemma f_final_least g s done m d p v z :
  F64.wf_graph Fl g →
  F64.inv Fl g s done m (F64.Locals d p []) →
  F64.all_relaxed Fl g done (F64.Locals d p []) →
  z ≠ finf → (d !! v = Some z ↔ F64.least_path_sum Fl g s v z).
Proof.
  intros Hwf Hinv Hrel Hz. split.
  - intros Hv. split; [by apply (F64.inv_sound _ _ _ _ _ _ Hinv)|].
    intros pth Hp.
    destruct (f_final_lower_bound g s done m d p pth Hwf Hinv Hrel s v fzero Hp
                (F64.inv_src_dist _ _ _ _ _ _ Hinv)) as (db & Hdb & Hle).
    rewrite Hv in Hdb. by injection Hdb as <-.
  - intros [(pth & Hp & Hw) Hmin].
    destruct (f_final_lower_bound g s done m d p pth Hwf Hinv Hrel s v fzero Hp
                (F64.inv_src_dist _ _ _ _ _ _ Hinv)) as (db & Hdb & Hle).
    fold (F64.path_sum Fl pth) in Hle. rewrite Hw in Hle.
    rewrite Hdb. f_equal. apply (F64.le_antisym Fl HL); [done|].
    assert (db ≠ finf) as Hdbfin.
    { intros ->. apply Hz. by apply fle_inf_eq. }
    destruct (F64.inv_sound _ _ _ _ _ _ Hinv v db Hdb Hdbfin) as (q & Hq & <-).
    by apply Hmin.
Qed.

Lemma f_final_inf g s done m d p v :
  F64.wf_graph Fl g →
  F64.inv Fl g s done m (F64.Locals d p []) →
  F64.all_relaxed Fl g done (F64.Locals d p []) →
  v ∈ dom g →
  (d !! v = Some finf ↔
   ∀ pth, F64.is_path g s v pth → F64.path_sum Fl pth = finf).
Proof.
  intros Hwf Hinv Hrel Hv. split.
  - intros Hinf pth Hp.
    destruct (f_final_lower_bound g s done m d p pth Hwf Hinv Hrel s v fzero Hp
                (F64.inv_src_dist _ _ _ _ _ _ Hinv)) as (db & Hdb & Hle).
    rewrite Hinf in Hdb. injection Hdb as <-. by apply fle_inf_eq.
  - intros Hall. rewrite <- (F64.inv_dom_dist _ _ _ _ _ _ Hinv) in Hv.
    apply elem_of_dom in Hv as [z Hz]. simpl in Hz. rewrite Hz. f_equal.
    destruct (feqb z finf) eqn:Hfin; [by apply feqb_true in Hfin|].
    apply feqb_false in Hfin.
    destruct (F64.inv_sound _ _ _ _ _ _ Hinv v z Hz Hfin) as (pth & Hp & <-).
    by apply Hall.
Qed.

(** ** Walking the predecessor links back *)

Lemma f_vertex_path_snoc g (l : list V) start z u v w :
  F64.vertex_path_from Fl g start l z → last l = Some u → F64.edge g u v w →
  F64.vertex_path_from Fl g start (l ++ [v]) (fadd z w).
Proof.
  revert start. induction l as [|a l IH]; intros start; simpl; [done|].
  destruct l as [|b l].
  - intros -> [= ->] He. simpl. exists w. done.
  - intros (w0 & He0 & Hrest) Hlast He. exists w0. split; [done|].
    apply IH; [done | | done]. by rewrite last_cons_cons in Hlast.
Qed.

Lemma f_final_prev_none g s done m d p v :
  F64.inv Fl g s done m (F64.Locals d p []) → v ∈ dom g → v ∉ done →
  p !! v = Some None.
Proof.
  intros Hinv Hv Hnd. rewrite <- (F64.inv_dom_prev _ _ _ _ _ _ Hinv) in Hv.
  apply elem_of_dom in Hv as [[u|] Hu]; [|done].
  destruct (F64.inv_prev _ _ _ _ _ _ Hinv v u Hu)
    as (_ & du & w & _ & _ & Hd & Hfin).
  destruct Hnd. by eapply f_final_done.
Qed.

Lemma f_walk_back_path g s done m d p :
  F64.inv Fl g s done m (F64.Locals d p []) →
  ∀ n v acc, v ∈ done → (pos done v + 2 ≤ n)%nat →
    ∃ r z, walk_back n p (Some v) acc = Ret (acc ++ r) ∧
      d !! v = Some z ∧ z ≠ finf ∧
      F64.vertex_path_from Fl g fzero (reverse r) z ∧
      head r = Some v ∧ last r = Some s ∧ NoDup r ∧
      (∀ x, x ∈ r → (pos done x ≤ pos done v)%nat) ∧
      rtc (pred_link p) v s.
Proof.
  intros Hinv. induction n as [|n IH]; intros v acc Hv Hn; [lia|].
  destruct (F64.inv_done _ _ _ _ _ _ Hinv v Hv) as (dv & Hdv & Hdvfin & _).
  simpl in Hdv. simpl.
  destruct (p !! v) as [[u|]|] eqn:Hp.
  - destruct (F64.inv_prev _ _ _ _ _ _ Hinv v u Hp)
      as (Hpos & du & w & Hdu & He & Hdv' & Hfin).
    simpl in Hdu, Hdv'.
    assert (u ∈ done) as Hu.
    { apply pos_lt_length. pose proof (pos_le_length done v). lia. }
    destruct (IH u (acc ++ [v]) Hu)
      as (r & z & Hrun & Hz & Hzfin & Hvp & Hhd & Hlast & Hnd & Hle & Hrtc);
      [lia|].
    rewrite Hdu in Hz. injection Hz as <-.
    exists (v :: r), (fadd du w). rewrite Hrun, <- app_assoc.
    split_and!; [done | done | done | | done | | | |].
    + rewrite reverse_cons. eapply f_vertex_path_snoc; [done | | done].
      by rewrite last_reverse.
    + destruct r; [done|]. done.
    + constructor; [|done]. intros Hin%Hle. lia.
    + intros x [->|Hx%Hle]%elem_of_cons; lia.
    + eapply rtc_l; [exact Hp | done].
  - destruct (F64.inv_prev_some _ _ _ _ _ _ Hinv v dv Hdv Hdvfin) as [->|[u Hu]].
    + destruct n as [|n]; [lia|]. simpl. exists [s], fzero.
      pose proof (F64.inv_src_dist _ _ _ _ _ _ Hinv) as Hs. simpl in Hs.
      split_and!; [done | done | apply (F64.zero_finite Fl HL) | done | done
                  | done | apply NoDup_singleton | | done].
      by intros x ->%list_elem_of_singleton.
    + simpl in Hu. congruence.
  - assert (v ∈ dom p) as Hd.
    { pose proof (F64.inv_dom_prev _ _ _ _ _ _ Hinv) as Hdp. simpl in Hdp.
      rewrite Hdp. by eapply f_inv_done_dom. }
    apply elem_of_dom in Hd as [? ?]. congruence.
Qed.

Lemma f_done_length_le g s done m st :
  F64.inv Fl g s done m st → (length done ≤ size (dom g))%nat.
Proof.
  intros Hinv. rewrite <- (size_list_to_set (C:=gset V) done)
    by apply (F64.inv_done_nodup _ _ _ _ _ _ Hinv).
  apply subseteq_size. intros x Hx%elem_of_list_to_set.
  by eapply f_inv_done_dom.
Qed.

Lemma f_reconstruct_finite g s done m d p t n :
  F64.inv Fl g s done m (F64.Locals d p []) → t ∈ done →
  (F64.reconstruct_fuel g ≤ n)%nat →
  ∃ path z, reconstruct_path n p t = Ret path ∧
    d !! t = Some z ∧ z ≠ finf ∧
    F64.vertex_path_from Fl g fzero path z ∧
    head path = Some s ∧ last path = Some t ∧ NoDup path ∧
    rtc (pred_link p) t s.
Proof.
  intros Hinv Ht Hn.
  pose proof (f_done_length_le _ _ _ _ _ Hinv) as Hlen.
  assert (pos done t < length done)%nat as Hpos by (by apply pos_lt_length).
  destruct (f_walk_back_path g s done m d p Hinv n t [] Ht)
    as (r & z & Hrun & Hz & Hzfin & Hvp & Hhd & Hlast & Hnd & _ & Hrtc).
  { unfold F64.reconstruct_fuel in Hn. lia. }
  unfold reconstruct_path.
  assert (is_Some (p !! t)) as [o ->].
  { apply elem_of_dom. pose proof (F64.inv_dom_prev _ _ _ _ _ _ Hinv) as Hdp.
    simpl in Hdp. rewrite Hdp. by eapply f_inv_done_dom. }
  rewrite Hrun. simpl. exists (reverse r), z.
  rewrite head_reverse, last_reverse. split_and!; try done.
  by rewrite reverse_Permutation.
Qed.

Lemma f_pred_link_acyclic g s done m d p :
  F64.inv Fl g s done m (F64.Locals d p []) → ∀ v, ¬ tc (pred_link p) v v.
Proof.
  intros Hinv v Htc.
  assert (∀ a b, tc (pred_link p) a b → (pos done b < pos done a)%nat) as Hpos.
  { induction 1 as [a b Hab | a b c Hab _ IH].
    - by destruct (F64.inv_prev _ _ _ _ _ _ Hinv a b Hab).
    - destruct (F64.inv_prev _ _ _ _ _ _ Hinv a b Hab). lia. }
  specialize (Hpos v v Htc). lia.
Qed.

(** ** The properties of the engine in float arithmetic *)

(** C1, as the code behaves: on a graph without negative weights and from a
    known source, [dijkstra] returns, and its distance map gives every
    vertex the least sum that the float additions accumulate along a path
    from the source; it gives infinity exactly to the vertices that no path
    reaches with a finite accumulated sum, among them every vertex that no
    path reaches at all. *)
Theorem dijkstra_least_path_sums g s fuel :
  F64.wf_graph Fl g → s ∈ dom g → (F64.dijkstra_fuel g ≤ fuel)%nat →
  ∃ d p, F64.dijkstra vltb Fl fuel g s = (g, F64.Ret (d, p)) ∧
    dom d = dom g ∧
    ∀ v, v ∈ dom g →
      (∀ z, z ≠ finf → (d !! v = Some z ↔ F64.least_path_sum Fl g s v z)) ∧
      (d !! v = Some finf ↔
       ∀ pth, F64.is_path g s v pth → F64.path_sum Fl pth = finf) ∧
      ((¬ ∃ pth, F64.is_path g s v pth) → d !! v = Some finf).
Proof.
  intros Hwf Hs Hfuel.
  destruct (f_dijkstra_inv g s fuel Hwf Hs Hfuel)
    as (d & p & done & m & Hrun & Hinv & Hrel).
  exists d, p. split_and!;
    [done | apply (F64.inv_dom_dist _ _ _ _ _ _ Hinv) |].
  intros v Hv. split_and!.
  - intros z Hz. by eapply f_final_least.
  - by eapply f_final_inf.
  - intros Hnone. eapply f_final_inf; [done..|].
    intros pth Hp. destruct Hnone. by exists pth.
Qed.

(** C6, as the code behaves: in the predecessor map of a run the links have
    no cycle and [reconstruct_path] returns for every target; every vertex
    whose returned distance is finite leads back to the source through the
    links, and the list returned for it starts at the source. *)
Theorem predecessor_chains_of_finite_distances g s fuel :
  F64.wf_graph Fl g → s ∈ dom g → (F64.dijkstra_fuel g ≤ fuel)%nat →
  ∃ d p, F64.dijkstra vltb Fl fuel g s = (g, F64.Ret (d, p)) ∧
    (∀ v, ¬ tc (pred_link p) v v) ∧
    (∀ t n, (F64.reconstruct_fuel g ≤ n)%nat →
       ∃ path, reconstruct_path n p t = Ret path) ∧
    (∀ t z, d !! t = Some z → z ≠ finf →
       rtc (pred_link p) t s ∧
       ∀ n, (F64.reconstruct_fuel g ≤ n)%nat →
         ∃ path, reconstruct_path n p t = Ret path ∧
                 head path = Some s ∧ last path = Some t).
Proof.
  intros Hwf Hs Hfuel.
  destruct (f_dijkstra_inv g s fuel Hwf Hs Hfuel)
    as (d & p & done & m & Hrun & Hinv & Hrel).
  exists d, p. split_and!; [done | by eapply f_pred_link_acyclic | |].
  - intros t n Hn. destruct (decide (t ∈ done)) as [Ht|Ht].
    + destruct (f_reconstruct_finite g s done m d p t n Hinv Ht Hn)
        as (path & _ & ? & _). by exists path.
    + destruct (decide (t ∈ dom g)) as [Hd|Hd].
      * exists [t]. apply reconstruct_isolated.
        -- by eapply f_final_prev_none.
        -- unfold F64.reconstruct_fuel in Hn. lia.
      * exists []. apply reconstruct_unknown. apply not_elem_of_dom.
        pose proof (F64.inv_dom_prev _ _ _ _ _ _ Hinv) as Hdp. simpl in Hdp.
        by rewrite Hdp.
  - intros t z Hz Hfin.
    assert (t ∈ done) as Ht by (by eapply f_final_done).
    split.
    + by destruct (f_reconstruct_finite g s done m d p t _ Hinv Ht
                     (Nat.le_refl _)) as (_ & _ & _ & _ & _ & _ & _ & _ & _ & ?).
    + intros n Hn.
      destruct (f_reconstruct_finite g s done m d p t n Hinv Ht Hn)
        as (path & _ & ? & _ & _ & _ & ? & ? & _). by exists path.
Qed.

(** X4: the predecessor map has the keys of the graph, and the predecessor
    of a vertex is [None] exactly when the vertex is the source or its
    returned distance is infinite. *)
Theorem predecessor_none_iff_unreached g s fuel :
  F64.wf_graph Fl g → s ∈ dom g → (F64.dijkstra_fuel g ≤ fuel)%nat →
  ∃ d p, F64.dijkstra vltb Fl fuel g s = (g, F64.Ret (d, p)) ∧
    dom p = dom g ∧
    ∀ v, v ∈ dom g → (p !! v = Some None ↔ v = s ∨ d !! v = Some finf).
Proof.
  intros Hwf Hs Hfuel.
  destruct (f_dijkstra_inv g s fuel Hwf Hs Hfuel)
    as (d & p & done & m & Hrun & Hinv & Hrel).
  exists d, p. split_and!;
    [done | apply (F64.inv_dom_prev _ _ _ _ _ _ Hinv) |].
  intros v Hv. split.
  - intros Hnone. destruct (decide (v = s)) as [|Hne]; [by left|]. right.
    pose proof Hv as Hv'.
    rewrite <- (F64.inv_dom_dist _ _ _ _ _ _ Hinv) in Hv'.
    apply elem_of_dom in Hv' as [z Hz]. simpl in Hz. rewrite Hz. f_equal.
    destruct (feqb z finf) eqn:Hfin; [by apply feqb_true in Hfin|].
    apply feqb_false in Hfin.
    destruct (F64.inv_prev_some _ _ _ _ _ _ Hinv v z Hz Hfin) as [?|[u Hu]];
      [done|].
    simpl in Hu. congruence.
  - intros [->|Hinf]; [apply (F64.inv_src_prev _ _ _ _ _ _ Hinv)|].
    eapply f_final_prev_none; [done..|].
    intros (z & Hz & Hfin & _)%(F64.inv_done _ _ _ _ _ _ Hinv).
    simpl in Hz. congruence.
Qed.

(** X5: a recorded predecessor [u] of [v] is joined to [v] by an edge of
    some weight [w] with [dist[v] = dist[u] + w] in float arithmetic; both
    distances are finite and are least accumulated path sums. *)
Theorem predecessor_edge_sum g s fuel :
  F64.wf_graph Fl g → s ∈ dom g → (F64.dijkstra_fuel g ≤ fuel)%nat →
  ∃ d p, F64.dijkstra vltb Fl fuel g s = (g, F64.Ret (d, p)) ∧
    ∀ v u, p !! v = Some (Some u) →
      ∃ du w, d !! u = Some du ∧ F64.edge g u v w ∧
              d !! v = Some (fadd du w) ∧
              du ≠ finf ∧ fadd du w ≠ finf ∧
              F64.least_path_sum Fl g s u du ∧
              F64.least_path_sum Fl g s v (fadd du w).
Proof.
  intros Hwf Hs Hfuel.
  destruct (f_dijkstra_inv g s fuel Hwf Hs Hfuel)
    as (d & p & done & m & Hrun & Hinv & Hrel).
  exists d, p. split; [done|]. intros v u Hp.
  destruct (F64.inv_prev _ _ _ _ _ _ Hinv v u Hp)
    as (Hpos & du & w & Hdu & He & Hdv & Hfin).
  simpl in Hdu, Hdv.
  assert (u ∈ done) as Hu.
  { apply pos_lt_length. pose proof (pos_le_length done v). lia. }
  destruct (F64.inv_done _ _ _ _ _ _ Hinv u Hu) as (du' & Hdu' & Hdufin & _).
  simpl in Hdu'. rewrite Hdu in Hdu'. injection Hdu' as <-.
  exists du, w. split_and!; [done..| |].
  - by apply (f_final_least g s done m d p u du Hwf Hinv Hrel Hdufin).
  - by apply (f_final_least g s done m d p v (fadd du w) Hwf Hinv Hrel Hfin).
Qed.

(** X6: no edge can improve a returned distance: for every edge [u → v] of
    weight [w], [dist[v]] is not negative and is at most [dist[u] + w] in
    float arithmetic. *)
Theorem no_edge_improves_distance g s fuel :
  F64.wf_graph Fl g → s ∈ dom g → (F64.dijkstra_fuel g ≤ fuel)%nat →
  ∃ d p, F64.dijkstra vltb Fl fuel g s = (g, F64.Ret (d, p)) ∧
    ∀ u v w du, F64.edge g u v w → d !! u = Some du →
      ∃ dv, d !! v = Some dv ∧ fle fzero dv ∧ fle dv (fadd du w).
Proof.
  intros Hwf Hs Hfuel.
  destruct (f_dijkstra_inv g s fuel Hwf Hs Hfuel)
    as (d & p & done & m & Hrun & Hinv & Hrel).
  exists d, p. split; [done|]. intros u v w du He Hdu.
  destruct (f_final_lower_bound g s done m d p [(u, v, w)] Hwf Hinv Hrel u v du)
    as (dv & Hdv & Hle); [by simpl | done |].
  exists dv. split_and!; [done| |done].
  by apply (F64.inv_nonneg _ _ _ _ _ _ Hinv v dv).
Qed.

(** X7: for a target whose returned distance is finite, [reconstruct_path]
    returns a list of vertices from the source to the target, without
    repetition, whose consecutive vertices are joined by edges whose
    weights, accumulated in float arithmetic along the list, give exactly
    the returned distance, which is the least accumulated path sum. *)
Theorem reconstruct_path_realises_distance g s fuel :
  F64.wf_graph Fl g → s ∈ dom g → (F64.dijkstra_fuel g ≤ fuel)%nat →
  ∃ d p, F64.dijkstra vltb Fl fuel g s = (g, F64.Ret (d, p)) ∧
    ∀ t z n, d !! t = Some z → z ≠ finf →
      (F64.reconstruct_fuel g ≤ n)%nat →
      ∃ path, reconstruct_path n p t = Ret path ∧
        F64.vertex_path_from Fl g fzero path z ∧
        F64.least_path_sum Fl g s t z ∧
        head path = Some s ∧ last path = Some t ∧ NoDup path.
Proof.
  intros Hwf Hs Hfuel.
  destruct (f_dijkstra_inv g s fuel Hwf Hs Hfuel)
    as (d & p & done & m & Hrun & Hinv & Hrel).
  exists d, p. split; [done|]. intros t z n Hz Hfin Hn.
  assert (t ∈ done) as Ht by (by eapply f_final_done).
  destruct (f_reconstruct_finite g s done m d p t n Hinv Ht Hn)
    as (path & z' & Hrun' & Hz' & _ & Hvp & Hhd & Hlast & Hnd & _).
  rewrite Hz in Hz'. injection Hz' as <-.
  exists path. split_and!; try done.
  by apply (f_final_least g s done m d p t z Hwf Hinv Hrel Hfin).
Qed.

(** X11: for every vertex of the graph the two loops of [main] agree: a
    vertex with infinite distance gets the "no path" line in both, and a
    vertex with a finite distance gets that distance in the first loop and,
    in the second, a printed path from the source that ends at the vertex
    and whose edge weights accumulate to exactly that distance. *)
Theorem main_report_agrees g s fuel :
  F64.wf_graph Fl g → s ∈ dom g → (F64.dijkstra_fuel g ≤ fuel)%nat →
  ∃ d p, F64.dijkstra vltb Fl fuel g s = (g, F64.Ret (d, p)) ∧
    ∀ node n, node ∈ dom g → (F64.reconstruct_fuel g ≤ n)%nat →
      ∃ z path,
        d !! node = Some z ∧ reconstruct_path n p node = Ret path ∧
        ((z = finf ∧
          F64.report_distance Fl d node = F64.Ret F64.DistanceNone ∧
          F64.path_is_printed s path = false) ∨
         (z ≠ finf ∧
          F64.report_distance Fl d node = F64.Ret (F64.DistanceIs z) ∧
          F64.path_is_printed s path = true ∧
          F64.vertex_path_from Fl g fzero path z ∧
          last path = Some node)).
Proof.
  intros Hwf Hs Hfuel.
  destruct (f_dijkstra_inv g s fuel Hwf Hs Hfuel)
    as (d & p & done & m & Hrun & Hinv & Hrel).
  exists d, p. split; [done|]. intros node n Hnode Hn.
  destruct (decide (node ∈ done)) as [Hd|Hd].
  - destruct (f_reconstruct_finite g s done m d p node n Hinv Hd Hn)
      as (path & z & Hrun' & Hz & Hfin & Hvp & Hhd & Hlast & _).
    exists z, path. split_and!; [done..|]. right.
    unfold F64.report_distance, F64.path_is_printed. rewrite Hz.
    apply feqb_false in Hfin as Hfin'. rewrite Hfin'.
    destruct path as [|x path]; [done|]. injection Hhd as ->.
    rewrite bool_decide_eq_true_2 by done. done.
  - pose proof Hnode as Hnode'.
    rewrite <- (F64.inv_dom_dist _ _ _ _ _ _ Hinv) in Hnode'.
    apply elem_of_dom in Hnode' as [z Hz]. simpl in Hz.
    assert (z = finf) as ->.
    { destruct (feqb z finf) eqn:Hfin; [by apply feqb_true in Hfin|].
      apply feqb_false in Hfin. destruct Hd. by eapply f_final_done. }
    assert (node ≠ s) as Hne.
    { intros ->. pose proof (F64.inv_src_dist _ _ _ _ _ _ Hinv) as Hsd.
      simpl in Hsd. rewrite Hsd in Hz. injection Hz as Hz.
      by apply (F64.zero_finite Fl HL). }
    pose proof (f_final_prev_none g s done m d p node Hinv Hnode Hd) as Hp.
    exists finf, [node]. split_and!; [done| |].
    + apply reconstruct_isolated; [done|].
      unfold F64.reconstruct_fuel in Hn. lia.
    + left. unfold F64.report_distance, F64.path_is_printed. rewrite Hz.
      assert (feqb finf finf = true) as -> by (by apply feqb_true).
      by rewrite bool_decide_eq_false_2.
Qed.

End F64Proofs.

(** ** add_edge and the fuel of the loop, without the laws *)

Section F64Code.
Context {V : Type} `{Countable V} {F : Type}.
Variable Fl : F64.ops F.

(** X1: when [w < 0] is false and [float(w)] is the float [x], a directed
    [add_edge] returns normally, appends [(v, x)] to the neighbour list of
    [u] (an absent list counts as empty), makes [v] a key without touching
    a list [v] already has, and changes no other key.  When [float(w)]
    raises [OverflowError], directed or not, the call raises it and has
    already made [u] a key, with an empty list if it was absent; nothing
    else has changed. *)
Theorem add_edge_accepted_weight (float_of_int : Z → option F)
    (g : gmap V (list (V * F))) u v (w : F64.pynum F) :
  F64.is_negative Fl w = false →
  (∀ x, F64.to_float float_of_int w = Some x →
     ∃ g', F64.add_edge Fl float_of_int g u v w false = (g', F64.Ret ()) ∧
       ∀ k, g' !! k =
         if decide (k = u) then Some (default [] (g !! u) ++ [(v, x)])
         else if decide (k = v) then Some (default [] (g !! v))
         else g !! k) ∧
  (F64.to_float float_of_int w = None →
     ∀ undirected, ∃ g',
       F64.add_edge Fl float_of_int g u v w undirected
       = (g', F64.Raise F64.OverflowError) ∧
       ∀ k, g' !! k =
         if decide (k = u) then Some (default [] (g !! u)) else g !! k).
Proof.
  intros Hneg. unfold F64.add_edge. rewrite Hneg.
  assert (∃ g0, F64.adj_getitem g u = (g0, default [] (g !! u)) ∧
            g0 !! u = Some (default [] (g !! u)) ∧
            ∀ k, k ≠ u → g0 !! k = g !! k) as (g0 & -> & Hu0 & Hk0).
  { unfold F64.adj_getitem. destruct (g !! u) as [l|] eqn:E.
    - exists g. done.
    - exists (<[u := []]> g). split_and!; [done | apply lookup_insert_eq |].
      intros k Hk. by rewrite lookup_insert_ne. }
  split.
  - intros x ->. eexists. split; [done|]. intros k.
    set (g1 := <[u := default [] (g !! u) ++ [(v, x)]]> g0).
    assert (g1 !! u = Some (default [] (g !! u) ++ [(v, x)])) as Hu
      by apply lookup_insert_eq.
    assert (∀ y, y ≠ u → g1 !! y = g !! y) as Hy.
    { intros y Hne. unfold g1. rewrite lookup_insert_ne by done. by apply Hk0. }
    destruct (decide (k = u)) as [->|Hku].
    + destruct (g1 !! v) eqn:Hv; [done|].
      rewrite lookup_insert_ne; [done|]. intros ->. congruence.
    + destruct (decide (k = v)) as [->|Hkv].
      * rewrite (Hy v Hku). destruct (g !! v) eqn:Hv.
        -- by rewrite (Hy v Hku), Hv.
        -- by rewrite lookup_insert_eq.
      * destruct (g1 !! v); [by apply Hy|].
        rewrite lookup_insert_ne by done. by apply Hy.
  - intros -> undirected. exists g0. split; [done|]. intros k.
    destruct (decide (k = u)) as [->|Hku]; [done | by apply Hk0].
Qed.

Lemma f_while_heap_fuel_mono (vltb : V → V → bool) n n'
    (g g' : gmap V (list (V * F))) st r :
  F64.while_heap vltb Fl n g st = (g', F64.Ret r) → (n ≤ n')%nat →
  F64.while_heap vltb Fl n' g st = (g', F64.Ret r).
Proof.
  revert n' g st. induction n as [|n IH]; intros n' g st; simpl; [done|].
  intros Hrun Hle. destruct n' as [|n']; [lia|]. simpl.
  destruct (F64.heappop vltb Fl (F64.heap st)) as [[[d u] h']|]; [|done].
  destruct (F64.while_body Fl g st d u h') as [g1 [st1| |]]; [|done..].
  apply IH; [done | lia].
Qed.

Lemma f_dijkstra_fuel_mono (vltb : V → V → bool) n n'
    (g g' : gmap V (list (V * F))) s r :
  F64.dijkstra vltb Fl n g s = (g', F64.Ret r) → (n ≤ n')%nat →
  F64.dijkstra vltb Fl n' g s = (g', F64.Ret r).
Proof.
  unfold F64.dijkstra. destruct (g !! s); [|done].
  apply f_while_heap_fuel_mono.
Qed.

Lemma f_ret_pair_inj {G A B : Type} (g g' : G) (a a' : A) (b b' : B) :
  (g, F64.Ret (a, b)) = (g', F64.Ret (a', b')) → a = a' ∧ b = b'.
Proof. by intros [= _ -> ->]. Qed.

End F64Code.

(** ** The float-level model at concrete arithmetics *)

Lemma overflow_run :
  F64.dijkstra String.ltb F64.prim_ops 4 overflow_graph "A"
  = (overflow_graph, F64.Ret (overflow_dist, overflow_prev)).
Proof. vm_compute. reflexivity. Qed.

(** In binary64 a distance is the rounded sum along the path, not the exact
    one: on [rounding_graph] the distance of C is [2.0 ** 53], the distance
    of its predecessor B. *)
Lemma rounding_run :
  ∃ d p, F64.dijkstra String.ltb F64.prim_ops 4 rounding_graph "A"
         = (rounding_graph, F64.Ret (d, p)) ∧
         d !! "B"%string = Some 0x1p+53%float ∧
         d !! "C"%string = Some 0x1p+53%float ∧
         p !! "C"%string = Some (Some "B"%string).
Proof. do 2 eexists. split; [vm_compute; reflexivity|]. by vm_compute. Qed.

Lemma overflow_path :
  F64.is_path overflow_graph "A"%string "C"%string
    [("A", "B", 0x1p+1023%float); ("B", "C", 0x1p+1023%float)]%string.
Proof.
  simpl. split_and!; try done.
  - eexists. split; [vm_compute; reflexivity | left].
  - eexists. split; [vm_compute; reflexivity | left].
Qed.

(** C1, as stated, fails in binary64: on the graph A → B → C with both
    weights [2.0 ** 1023], the vertex C is reached by a path, yet no run
    from A gives "infinity exactly to the unreachable vertices" (the
    distance of C is infinite, since the sum of the two weights
    overflows). *)
Lemma overflow_reachable_vertex_infinite :
  ¬ ∃ fuel d p,
    F64.dijkstra String.ltb F64.prim_ops fuel overflow_graph "A"
    = (overflow_graph, F64.Ret (d, p)) ∧
    ∀ v, v ∈ dom overflow_graph →
      (d !! v = Some PrimFloat.infinity ↔
       ¬ ∃ pth, F64.is_path overflow_graph "A"%string v pth).
Proof.
  intros (fuel & d & p & Hrun & Hclaim).
  pose proof overflow_run as Hrun0.
  apply (f_dijkstra_fuel_mono F64.prim_ops String.ltb fuel (fuel + 4)) in Hrun;
    [|lia].
  apply (f_dijkstra_fuel_mono F64.prim_ops String.ltb 4 (fuel + 4)) in Hrun0;
    [|lia].
  rewrite Hrun in Hrun0. apply f_ret_pair_inj in Hrun0 as [-> _].
  destruct (Hclaim "C"%string) as [Hinf _].
  { apply elem_of_dom. vm_compute. eauto. }
  apply Hinf; [vm_compute; reflexivity|]. eexists. apply overflow_path.
Qed.

(** C6, as stated, fails in binary64: on the same graph C is reached by a
    path, yet [reconstruct_path] for C returns [[C]], which does not begin
    with the source A. *)
Lemma overflow_reachable_vertex_no_chain :
  ¬ ∃ fuel d p,
    F64.dijkstra String.ltb F64.prim_ops fuel overflow_graph "A"
    = (overflow_graph, F64.Ret (d, p)) ∧
    ∀ t, (∃ pth, F64.is_path overflow_graph "A"%string t pth) →
      ∀ n, (F64.reconstruct_fuel overflow_graph ≤ n)%nat →
        ∃ path, reconstruct_path n p t = Ret path ∧
                head path = Some "A"%string.
Proof.
  intros (fuel & d & p & Hrun & Hclaim).
  pose proof overflow_run as Hrun0.
  apply (f_dijkstra_fuel_mono F64.prim_ops String.ltb fuel (fuel + 4)) in Hrun;
    [|lia].
  apply (f_dijkstra_fuel_mono F64.prim_ops String.ltb 4 (fuel + 4)) in Hrun0;
    [|lia].
  rewrite Hrun in Hrun0. apply f_ret_pair_inj in Hrun0 as [_ ->].
  destruct (Hclaim "C"%string (ex_intro _ _ overflow_path) 5%nat)
    as (path & Hpath & Hhead).
  { vm_compute. lia. }
  vm_compute in Hpath. injection Hpath as <-. discriminate Hhead.
Qed.

(** The capped arithmetic has the laws. *)
Lemma capped_laws (cap : Z) : 0 ≤ cap → F64.laws (F64.capped_ops cap).
Proof.
  intros Hcap. constructor; unfold F64.le; simpl.
  - intros a b. apply bool_decide_eq_true.
  - apply num_ltb_irrefl.
  - intros a b Hab. apply num_ltb_le in Hab. exact Hab.
  - intros a b c. apply num_le_trans.
  - intros a b. apply num_le_antisym.
  - apply num_le_inf.
  - done.
  - intros [a|] [b|] [w|]; simpl; try done;
      try (intros _ _ _; by destruct (a + w <=? cap)).
    intros Ha Hw Hab. fold (num_le (Fin 0) (Fin a)) in Ha.
    fold (num_le (Fin 0) (Fin w)) in Hw. fold (num_le (Fin a) (Fin b)) in Hab.
    apply num_le_fin in Ha, Hw, Hab.
    destruct (Z.leb_spec (a + w) cap), (Z.leb_spec (b + w) cap);
      simpl; try done; try lia; try (apply Z.ltb_ge; lia).
  - intros [a|] [w|]; simpl; try done.
    intros Ha Hw. fold (num_le (Fin 0) (Fin a)) in Ha.
    fold (num_le (Fin 0) (Fin w)) in Hw. apply num_le_fin in Ha, Hw.
    destruct (Z.leb_spec (a + w) cap); simpl; try done;
      try (apply Z.ltb_ge; lia).
Qed.

Lemma capped_graph_wf : F64.wf_graph (F64.capped_ops 10) capped_graph.
Proof.
  intros u v w (l & Hl & Hin). unfold capped_graph in *.
  rewrite !dom_insert_L.
  repeat (rewrite lookup_insert in Hl; case_decide; simplify_eq);
    try (by rewrite lookup_empty in Hl).
  - apply list_elem_of_singleton in Hin as [= -> ->]. split; [set_solver | done].
  - apply list_elem_of_singleton in Hin as [= -> ->]. split; [set_solver | done].
  - by apply elem_of_nil in Hin.
Qed.

Lemma capped_graph_source : "A"%string ∈ dom capped_graph.
Proof. apply elem_of_dom. vm_compute. eauto. Qed.

Lemma capped_graph_fuel : (F64.dijkstra_fuel capped_graph ≤ 4)%nat.
Proof. vm_compute. lia. Qed.

(** ** The float-level theorems at the capped arithmetic *)

Lemma capped_laws_10 : F64.laws (F64.capped_ops 10).
Proof. apply capped_laws. lia. Qed.

Lemma dijkstra_least_path_sums_witness :
  F64.laws (F64.capped_ops 10) ∧
  F64.wf_graph (F64.capped_ops 10) capped_graph ∧
  "A"%string ∈ dom capped_graph ∧
  (F64.dijkstra_fuel capped_graph ≤ 4)%nat ∧
  ∃ d p, F64.dijkstra String.ltb (F64.capped_ops 10) 4 capped_graph "A"
         = (capped_graph, F64.Ret (d, p)) ∧
    dom d = dom capped_graph ∧
    ∀ v, v ∈ dom capped_graph →
      (∀ z, z ≠ PInf →
         (d !! v = Some z ↔
          F64.least_path_sum (F64.capped_ops 10) capped_graph "A"%string v z)) ∧
      (d !! v = Some PInf ↔
       ∀ pth, F64.is_path capped_graph "A"%string v pth →
              F64.path_sum (F64.capped_ops 10) pth = PInf) ∧
      ((¬ ∃ pth, F64.is_path capped_graph "A"%string v pth) →
       d !! v = Some PInf).
Proof.
  split_and!; [exact capped_laws_10 | exact capped_graph_wf
              | exact capped_graph_source | exact capped_graph_fuel |].
  exact (dijkstra_least_path_sums (F64.capped_ops 10) capped_laws_10 String.ltb capped_graph
           "A"%string 4%nat capped_graph_wf capped_graph_source
           capped_graph_fuel).
Defined.

Lemma predecessor_chains_of_finite_distances_witness :
  F64.laws (F64.capped_ops 10) ∧
  F64.wf_graph (F64.capped_ops 10) capped_graph ∧
  "A"%string ∈ dom capped_graph ∧
  (F64.dijkstra_fuel capped_graph ≤ 4)%nat ∧
  ∃ d p, F64.dijkstra String.ltb (F64.capped_ops 10) 4 capped_graph "A"
         = (capped_graph, F64.Ret (d, p)) ∧
    (∀ v, ¬ tc (pred_link p) v v) ∧
    (∀ t n, (F64.reconstruct_fuel capped_graph ≤ n)%nat →
       ∃ path, reconstruct_path n p t = Ret path) ∧
    (∀ t z, d !! t = Some z → z ≠ PInf →
       rtc (pred_link p) t "A"%string ∧
       ∀ n, (F64.reconstruct_fuel capped_graph ≤ n)%nat →
         ∃ path, reconstruct_path n p t = Ret path ∧
                 head path = Some "A"%string ∧ last path = Some t).
Proof.
  split_and!; [exact capped_laws_10 | exact capped_graph_wf
              | exact capped_graph_source | exact capped_graph_fuel |].
  exact (predecessor_chains_of_finite_distances (F64.capped_ops 10) capped_laws_10 String.ltb capped_graph
           "A"%string 4%nat capped_graph_wf capped_graph_source
           capped_graph_fuel).
Defined.

Lemma predecessor_none_iff_unreached_witness :
  F64.laws (F64.capped_ops 10) ∧
  F64.wf_graph (F64.capped_ops 10) capped_graph ∧
  "A"%string ∈ dom capped_graph ∧
  (F64.dijkstra_fuel capped_graph ≤ 4)%nat ∧
  ∃ d p, F64.dijkstra String.ltb (F64.capped_ops 10) 4 capped_graph "A"
         = (capped_graph, F64.Ret (d, p)) ∧
    dom p = dom capped_graph ∧
    ∀ v, v ∈ dom capped_graph →
      (p !! v = Some None ↔ v = "A"%string ∨ d !! v = Some PInf).
Proof.
  split_and!; [exact capped_laws_10 | exact capped_graph_wf
              | exact capped_graph_source | exact capped_graph_fuel |].
  exact (predecessor_none_iff_unreached (F64.capped_ops 10) capped_laws_10 String.ltb capped_graph
           "A"%string 4%nat capped_graph_wf capped_graph_source
           capped_graph_fuel).
Defined.

Lemma predecessor_edge_sum_witness :
  F64.laws (F64.capped_ops 10) ∧
  F64.wf_graph (F64.capped_ops 10) capped_graph ∧
  "A"%string ∈ dom capped_graph ∧
  (F64.dijkstra_fuel capped_graph ≤ 4)%nat ∧
  ∃ d p, F64.dijkstra String.ltb (F64.capped_ops 10) 4 capped_graph "A"
         = (capped_graph, F64.Ret (d, p)) ∧
    ∀ v u, p !! v = Some (Some u) →
      ∃ du w, d !! u = Some du ∧ F64.edge capped_graph u v w ∧
              d !! v = Some (F64.capped_add 10 du w) ∧
              du ≠ PInf ∧ F64.capped_add 10 du w ≠ PInf ∧
              F64.least_path_sum (F64.capped_ops 10) capped_graph "A"%string u du ∧
              F64.least_path_sum (F64.capped_ops 10) capped_graph "A"%string v
                (F64.capped_add 10 du w).
Proof.
  split_and!; [exact capped_laws_10 | exact capped_graph_wf
              | exact capped_graph_source | exact capped_graph_fuel |].
  exact (predecessor_edge_sum (F64.capped_ops 10) capped_laws_10 String.ltb capped_graph
           "A"%string 4%nat capped_graph_wf capped_graph_source
           capped_graph_fuel).
Defined.

Lemma no_edge_improves_distance_witness :
  F64.laws (F64.capped_ops 10) ∧
  F64.wf_graph (F64.capped_ops 10) capped_graph ∧
  "A"%string ∈ dom capped_graph ∧
  (F64.dijkstra_fuel capped_graph ≤ 4)%nat ∧
  ∃ d p, F64.dijkstra String.ltb (F64.capped_ops 10) 4 capped_graph "A"
         = (capped_graph, F64.Ret (d, p)) ∧
    ∀ u v w du, F64.edge capped_graph u v w → d !! u = Some du →
      ∃ dv, d !! v = Some dv ∧ num_le (Fin 0) dv ∧
            num_le dv (F64.capped_add 10 du w).
Proof.
  split_and!; [exact capped_laws_10 | exact capped_graph_wf
              | exact capped_graph_source | exact capped_graph_fuel |].
  exact (no_edge_improves_distance (F64.capped_ops 10) capped_laws_10 String.ltb capped_graph
           "A"%string 4%nat capped_graph_wf capped_graph_source
           capped_graph_fuel).
Defined.

Lemma reconstruct_path_realises_distance_witness :
  F64.laws (F64.capped_ops 10) ∧
  F64.wf_graph (F64.capped_ops 10) capped_graph ∧
  "A"%string ∈ dom capped_graph ∧
  (F64.dijkstra_fuel capped_graph ≤ 4)%nat ∧
  ∃ d p, F64.dijkstra String.ltb (F64.capped_ops 10) 4 capped_graph "A"
         = (capped_graph, F64.Ret (d, p)) ∧
    ∀ t z n, d !! t = Some z → z ≠ PInf →
      (F64.reconstruct_fuel capped_graph ≤ n)%nat →
      ∃ path, reconstruct_path n p t = Ret path ∧
        F64.vertex_path_from (F64.capped_ops 10) capped_graph (Fin 0) path z ∧
        F64.least_path_sum (F64.capped_ops 10) capped_graph "A"%string t z ∧
        head path = Some "A"%string ∧ last path = Some t ∧ NoDup path.
Proof.
  split_and!; [exact capped_laws_10 | exact capped_graph_wf
              | exact capped_graph_source | exact capped_graph_fuel |].
  exact (reconstruct_path_realises_distance (F64.capped_ops 10) capped_laws_10 String.ltb capped_graph
           "A"%string 4%nat capped_graph_wf capped_graph_source
           capped_graph_fuel).
Defined.

Lemma main_report_agrees_witness :
  F64.laws (F64.capped_ops 10) ∧
  F64.wf_graph (F64.capped_ops 10) capped_graph ∧
  "A"%string ∈ dom capped_graph ∧
  (F64.dijkstra_fuel capped_graph ≤ 4)%nat ∧
  ∃ d p, F64.dijkstra String.ltb (F64.capped_ops 10) 4 capped_graph "A"
         = (capped_graph, F64.Ret (d, p)) ∧
    ∀ node n, node ∈ dom capped_graph →
      (F64.reconstruct_fuel capped_graph ≤ n)%nat →
      ∃ z path,
        d !! node = Some z ∧ reconstruct_path n p node = Ret path ∧
        ((z = PInf ∧
          F64.report_distance (F64.capped_ops 10) d node
          = F64.Ret F64.DistanceNone ∧
          F64.path_is_printed "A"%string path = false) ∨
         (z ≠ PInf ∧
          F64.report_distance (F64.capped_ops 10) d node
          = F64.Ret (F64.DistanceIs z) ∧
          F64.path_is_printed "A"%string path = true ∧
          F64.vertex_path_from (F64.capped_ops 10) capped_graph (Fin 0) path z ∧
          last path = Some node)).
Proof.
  split_and!; [exact capped_laws_10 | exact capped_graph_wf
              | exact capped_graph_source | exact capped_graph_fuel |].
  exact (main_report_agrees (F64.capped_ops 10) capped_laws_10 String.ltb capped_graph
           "A"%string 4%nat capped_graph_wf capped_graph_source
           capped_graph_fuel).
Defined.

Lemma add_edge_accepted_weight_witness :
  F64.is_negative (F64.capped_ops 10) (F64.PyInt 7) = false ∧
  F64.to_float (λ z, if z <=? 10 then Some (Fin z) else None) (F64.PyInt 7)
  = Some (Fin 7) ∧
  (∃ g', F64.add_edge (F64.capped_ops 10)
           (λ z, if z <=? 10 then Some (Fin z) else None)
           capped_graph "C"%string "A"%string (F64.PyInt 7) false
         = (g', F64.Ret ()) ∧
     ∀ k, g' !! k =
       if decide (k = "C"%string)
       then Some (default [] (capped_graph !! "C"%string) ++ [("A"%string, Fin 7)])
       else if decide (k = "A"%string)
            then Some (default [] (capped_graph !! "A"%string))
            else capped_graph !! k) ∧
  F64.is_negative (F64.capped_ops 10) (F64.PyInt 11) = false ∧
  F64.to_float (λ z, if z <=? 10 then Some (Fin z) else None) (F64.PyInt 11)
  = None ∧
  (∃ g', F64.add_edge (F64.capped_ops 10)
           (λ z, if z <=? 10 then Some (Fin z) else None)
           capped_graph "Z"%string "A"%string (F64.PyInt 11) true
         = (g', F64.Raise F64.OverflowError) ∧
     ∀ k, g' !! k =
       if decide (k = "Z"%string)
       then Some (default [] (capped_graph !! "Z"%string))
       else capped_graph !! k).
Proof.
  assert (F64.is_negative (F64.capped_ops 10) (F64.PyInt 7) = false) as Hn7
    by reflexivity.
  assert (F64.to_float (λ z, if z <=? 10 then Some (Fin z) else None)
            (F64.PyInt 7) = Some (Fin 7)) as Hf7 by reflexivity.
  assert (F64.is_negative (F64.capped_ops 10) (F64.PyInt 11) = false) as Hn11
    by reflexivity.
  assert (F64.to_float (λ z, if z <=? 10 then Some (Fin z) else None)
            (F64.PyInt 11) = None) as Hf11 by reflexivity.
  split_and!; [exact Hn7 | exact Hf7 | | exact Hn11 | exact Hf11 |].
  - exact (proj1 (add_edge_accepted_weight (F64.capped_ops 10)
                    (λ z, if z <=? 10 then Some (Fin z) else None)
                    capped_graph "C"%string "A"%string (F64.PyInt 7) Hn7)
             (Fin 7) Hf7).
  - exact (proj2 (add_edge_accepted_weight (F64.capped_ops 10)
                    (λ z, if z <=? 10 then Some (Fin z) else None)
                    capped_graph "Z"%string "A"%string (F64.PyInt 11) Hn11)
             Hf11 true).
Defined.
